(** * Bounded-concurrency batch driver of [scripts/batch_medical_processor.py]

    A shallow embedding of [MedicalBatchProcessor.process_single_document],
    [process_documents_batch] (semaphore, gather and the aggregation loop)
    and [print_batch_summary], with the properties of the batch summary.

    Modelling conventions.
    - A Python [dict] with string keys is a [gmap string value]; the
      [documents] dict, whose keys are whatever [result["file_name"]] holds
      and which is listed in insertion order, is an [odict].
    - Dict objects live in a [heap]; the gathered results and the
      [documents] mapping hold references ([loc]) to them, as in Python.
    - [time.time()] readings and durations are exact rationals ([Qc]); the
      rounding of IEEE doubles is not modelled.
    - A Python [str] is a [string]; one [ascii] stands for one character.
    - A fault is an instance of Python's [Exception]; [KeyboardInterrupt],
      [SystemExit] and [CancelledError] are outside the model. *)

From Stdlib Require Import QArith Qcanon DecimalString DecimalNat.
From stdpp Require Import base option list strings gmap fin_maps relations.

Local Open Scope string_scope.
Local Open Scope nat_scope.

(** ** Values, dicts and the heap *)

Inductive value : Type :=
  | VNone
  | VStr (s : string)
  | VNum (q : Qc).

Global Instance value_eq_dec : EqDecision value.
Proof. solve_decision. Defined.

Global Instance value_countable : Countable value.
Proof.
  refine (inj_countable'
    (λ v, match v with
          | VNone => inl ()
          | VStr s => inr (inl s)
          | VNum q => inr (inr q)
          end)
    (λ x, match x with
          | inl _ => VNone
          | inr (inl s) => VStr s
          | inr (inr q) => VNum q
          end) _).
  by intros [].
Defined.

Global Instance value_inhabited : Inhabited value := populate VNone.

Abbreviation Dict := (gmap string value).
Abbreviation loc := positive.
Abbreviation heap := (gmap loc Dict).

(** [str(e)] is all the code reads of an exception. *)
Record Exception : Type := mkException { exc_str : string }.

Global Instance Exception_eq_dec : EqDecision Exception.
Proof. solve_decision. Defined.

(** What the code reads of a [pathlib.Path]. *)
Record Path : Type := mkPath {
  path_str : string;   (* str(file_path) *)
  name : string;       (* file_path.name *)
  stem : string;       (* file_path.stem *)
}.

(** [str(output_dir / stem)] *)
Definition joinpath (output_dir : string) (stem : string) : string :=
  output_dir +:+ "/" +:+ stem.

(** ** Errors raised by the driver itself *)

Inductive error : Type :=
  | IndexError
  | KeyError (k : string)
  | TypeError
  | ValueError
  | ZeroDivisionError.

Global Instance error_eq_dec : EqDecision error.
Proof. solve_decision. Defined.

(** A computation that returns an [A] or raises. *)
Definition raising (A : Type) : Type := error + A.

Definition raise {A} (e : error) : raising A := inl e.

Global Instance raising_ret : MRet raising := λ A a, inr a.
Global Instance raising_bind : MBind raising := λ A B k m,
  match m with
  | inl e => inl e
  | inr a => k a
  end.

(** [d[k]] *)
Definition getitem (d : Dict) (k : string) : raising value :=
  match d !! k with
  | Some v => mret v
  | None => raise (KeyError k)
  end.

(** ** [process_single_document] *)

(** The [try] body is a sequence of awaits on the RAG library; all the
    driver sees is whether one of them raised or the validation query
    returned its text. *)
Inductive try_body : Type :=
  | Returns (test_result : string)
  | Raises (e : Exception).

(** One execution of [process_single_document]: the two [time.time()]
    readings and the outcome of the [try] body. *)
Record run : Type := mkRun {
  start_time : Qc;
  body : try_body;
  end_time : Qc;
}.

(** [test_result[:200] + "..." if len(test_result) > 200 else test_result] *)
Definition truncate (test_result : string) : string :=
  if decide (200 < String.length test_result)%nat
  then String.substring 0 200 test_result +:+ "..."
  else test_result.

Definition process_single_document
    (file_path : Path) (output_dir : string) (document_id : string)
    (r : run) : Dict :=
  let result : Dict :=
    <["file_name" := VStr (name file_path)]>
    (<["file_path" := VStr (path_str file_path)]>
    (<["status" := VStr "processing"]>
    (<["start_time" := VNum (start_time r)]>
    (<["error" := VNone]>
    (<["processing_time" := VNum 0%Qc]>
    (<["output_dir" := VStr (joinpath output_dir (stem file_path))]> ∅)))))) in
  match body r with
  | Returns test_result =>
      <["status" := VStr "completed"]>
      (<["processing_time" := VNum (end_time r - start_time r)%Qc]>
      (<["test_query_result" := VStr (truncate test_result)]> result))
  | Raises e =>
      <["status" := VStr "failed"]>
      (<["processing_time" := VNum (end_time r - start_time r)%Qc]>
      (<["error" := VStr (exc_str e)]> result))
  end.

(** ** The semaphore, the tasks and [asyncio.gather] *)

(** [f"{i:03d}"] *)
Definition format_03d (i : nat) : string :=
  let digits := NilZero.string_of_uint (Nat.to_uint i) in
  String.concat "" (replicate (3 - String.length digits) "0") +:+ digits.

Definition doc_id (i : nat) : string := "med_doc_" +:+ format_03d i.

(** What the environment does to one task once it holds its slot: the
    call of [process_single_document] runs to its [return], or a fault
    leaves it from outside its [try] scope. *)
Inductive task_env : Type :=
  | Runs (r : run)
  | Escapes (e : Exception).

(** The value or exception with which the body of [async with semaphore]
    ends. *)
Definition process_with_semaphore
    (output_dir : string) (file_path : Path) (doc_id : string)
    (env : task_env) : Dict + Exception :=
  match env with
  | Runs r => inl (process_single_document file_path output_dir doc_id r)
  | Escapes e => inr e
  end.

(** The outcome of every task, in the order of [file_paths]. *)
Definition outcomes (file_paths : list Path) (output_dir : string)
    (env : nat → task_env) : list (Dict + Exception) :=
  imap (λ i file_path,
          process_with_semaphore output_dir file_path (doc_id i) (env i))
       file_paths.

Inductive task_state : Type :=
  | Waiting                           (* before or in [semaphore.acquire()] *)
  | Holding                           (* inside [async with semaphore] *)
  | Finished (r : Dict + Exception).  (* slot released, result or exception set *)

Global Instance task_state_eq_dec : EqDecision task_state.
Proof. solve_decision. Defined.

Record sched : Type := mkSched {
  sem_value : nat;             (* [semaphore._value] *)
  tasks : list task_state;
}.

Definition init (max_workers n : nat) : sched :=
  {| sem_value := max_workers; tasks := replicate n Waiting |}.

(** One scheduling step of the event loop: a waiting task takes a free
    slot, or a task that holds one leaves [async with] (by [return] or by
    an exception) and gives it back. *)
Inductive step (outs : list (Dict + Exception)) : sched → sched → Prop :=
  | step_acquire st i v :
      tasks st !! i = Some Waiting →
      sem_value st = S v →
      step outs st {| sem_value := v; tasks := <[i := Holding]> (tasks st) |}
  | step_release st i r :
      tasks st !! i = Some Holding →
      outs !! i = Some r →
      step outs st {| sem_value := S (sem_value st);
                      tasks := <[i := Finished r]> (tasks st) |}.

Definition finished (t : task_state) : option (Dict + Exception) :=
  match t with
  | Finished r => Some r
  | _ => None
  end.

(** [await asyncio.gather] with [return_exceptions=True]: defined once
    every task has finished, the results in task order. *)
Definition gather (st : sched) : option (list (Dict + Exception)) :=
  mapM finished (tasks st).

Definition holding (st : sched) : nat :=
  length (filter (λ t, t = Holding) (tasks st)).

(** A result as the aggregation loop sees it: a reference to the dict a
    task returned, or the exception it raised. *)
Inductive gathered : Type :=
  | Ref (l : loc)
  | Exc (e : Exception).

(** The dict every task returned is an object of its own. *)
Fixpoint store (h : heap) (rs : list (Dict + Exception)) : heap * list gathered :=
  match rs with
  | [] => (h, [])
  | inl d :: rs =>
      let l := fresh (dom h) in
      let '(h', gs) := store (<[l := d]> h) rs in
      (h', Ref l :: gs)
  | inr e :: rs =>
      let '(h', gs) := store h rs in
      (h', Exc e :: gs)
  end.

(** ** The aggregation loop of [process_documents_batch] *)

(** A dict whose insertion order is observed: the mapping, and the keys in
    the order in which they were first inserted. *)
Record odict : Type := mkOdict {
  items : gmap value loc;
  keys : list value;
}.

Definition empty_odict : odict := {| items := ∅; keys := [] |}.

(** [d[k] = l] *)
Definition setitem (k : value) (l : loc) (d : odict) : odict :=
  {| items := <[k := l]> (items d);
     keys := if decide (is_Some (items d !! k))
             then keys d else (keys d ++ [k])%list |}.

(** [d.items()] *)
Definition odict_items (d : odict) : list (value * loc) :=
  omap (λ k, (λ l, (k, l)) <$> items d !! k) (keys d).

Record batch_results : Type := mkBatch {
  total_documents : nat;
  completed : nat;
  failed : nat;
  total_time : Qc;
  documents : odict;
}.

(** [file_paths[i]] *)
Definition index (file_paths : list Path) (i : nat) : raising Path :=
  match file_paths !! i with
  | Some file_path => mret file_path
  | None => raise IndexError
  end.

(** The object a reference points to. Python has no dangling reference;
    the model reads a missing object as the empty dict. *)
Definition deref (h : heap) (l : loc) : Dict := default ∅ (h !! l).

(** [total_time + x] *)
Definition add_number (total_time : Qc) (x : value) : raising Qc :=
  match x with
  | VNum q => mret (total_time + q)%Qc
  | _ => raise TypeError
  end.

(** One iteration of [for i, result in enumerate(results)]. *)
Definition aggregate_step (file_paths : list Path)
    (acc : heap * batch_results) (i : nat) (result : gathered)
    : raising (heap * batch_results) :=
  let '(h, batch) := acc in
  match result with
  | Exc e =>
      file_path ← index file_paths i;
      let l := fresh (dom h) in
      let d : Dict := <["status" := VStr "failed"]>
                      (<["error" := VStr (exc_str e)]> ∅) in
      mret (<[l := d]> h,
            {| total_documents := total_documents batch;
               completed := completed batch;
               failed := S (failed batch);
               total_time := total_time batch;
               documents :=
                 setitem (VStr (name file_path)) l (documents batch) |})
  | Ref l =>
      let d := deref h l in
      file_name ← getitem d "file_name";
      status ← getitem d "status";
      processing_time ← getitem d "processing_time";
      total ← add_number (total_time batch) processing_time;
      mret (h,
            {| total_documents := total_documents batch;
               completed := if decide (status = VStr "completed")
                            then S (completed batch) else completed batch;
               failed := if decide (status = VStr "completed")
                         then failed batch else S (failed batch);
               total_time := total;
               documents := setitem file_name l (documents batch) |})
  end.

Fixpoint aggregate_from (file_paths : list Path) (i : nat)
    (results : list gathered) (acc : heap * batch_results)
    : raising (heap * batch_results) :=
  match results with
  | [] => mret acc
  | result :: results =>
      acc' ← aggregate_step file_paths acc i result;
      aggregate_from file_paths (S i) results acc'
  end.

(** [batch_results] before the loop. *)
Definition initial (file_paths : list Path) : batch_results :=
  {| total_documents := length file_paths;
     completed := 0; failed := 0; total_time := 0%Qc;
     documents := empty_odict |}.

Definition aggregate (h : heap) (file_paths : list Path)
    (results : list gathered) : raising (heap * batch_results) :=
  aggregate_from file_paths 0 results (h, initial file_paths).

(** [await process_documents_batch(file_paths, output_dir)] returns [res]
    (or raises) after some interleaving of its tasks under a semaphore of
    [max_workers] slots. *)
Inductive process_documents_batch (max_workers : nat)
    (file_paths : list Path) (output_dir : string) (env : nat → task_env)
    : raising (heap * batch_results) → Prop :=
  | batch_done st rs h gs :
      rtc (step (outcomes file_paths output_dir env))
          (init max_workers (length file_paths)) st →
      gather st = Some rs →
      store ∅ rs = (h, gs) →
      process_documents_batch max_workers file_paths output_dir env
        (aggregate h file_paths gs).

(** The record the summary holds under a key. *)
Definition document (h : heap) (batch : batch_results) (k : value)
    : option Dict :=
  l ← items (documents batch) !! k; h !! l.

(** ** [print_batch_summary] *)

(** Standard output is the list of the strings passed to [print]; a
    computation appends to it and returns or raises. *)
Definition printing (A : Type) : Type :=
  list string → list string * raising A.

Global Instance printing_ret : MRet printing := λ A a out, (out, inr a).
Global Instance printing_bind : MBind printing := λ A B k m out,
  match m out with
  | (out', inl e) => (out', inl e)
  | (out', inr a) => k a out'
  end.

Definition print (s : string) : printing () := λ out, ((out ++ [s])%list, inr ()).
Definition lift {A} (m : raising A) : printing A := λ out, (out, m).

Definition digits (n : Z) : string :=
  NilZero.string_of_uint (N.to_uint (Z.to_N n)).

(** The integer nearest to [num / den], ties to even, for [0 ≤ num]. *)
Definition round_half_even (num : Z) (den : positive) : Z :=
  let q := (num / Z.pos den)%Z in
  let r := (num mod Z.pos den)%Z in
  match (2 * r ?= Z.pos den)%Z with
  | Lt => q
  | Gt => (q + 1)%Z
  | Eq => if Z.even q then q else (q + 1)%Z
  end.

(** [f"{x:.<d>f}"] for a number [x], [1 ≤ d]. *)
Definition format_f (d : nat) (x : Qc) : string :=
  let scale := (10 ^ Z.of_nat d)%Z in
  let n := round_half_even (Z.abs (Qnum x) * scale) (Qden x) in
  let frac := digits (n mod scale) in
  (if decide (Qnum x < 0)%Z then "-" else "")
  +:+ digits (n / scale) +:+ "."
  +:+ String.concat "" (replicate (d - String.length frac) "0") +:+ frac.

(** [f"{v:.<d>f}"] for any value. *)
Definition format_value_f (d : nat) (v : value) : raising string :=
  match v with
  | VNum q => mret (format_f d q)
  | VStr _ => raise ValueError
  | VNone => raise TypeError
  end.

(** [a / b] *)
Definition truediv (a b : Qc) : raising Qc :=
  if decide (b = 0%Qc) then raise ZeroDivisionError else mret (a / b)%Qc.

Definition of_nat (n : nat) : Qc := Q2Qc (inject_Z (Z.of_nat n)).

Definition newline : string := String (Ascii.ascii_of_nat 10) "".

Definition banner : string := String.concat "" (replicate 80 "=").

Section rendering.
(** [str(x)] of a number is left to the caller; the summaries the driver
    builds hold no number where [str] is applied. *)
Variable str_number : Qc → string.

(** [f"{v}"] *)
Definition format_value (v : value) : string :=
  match v with
  | VNone => "None"
  | VStr s => s
  | VNum q => str_number q
  end.

(** The body of [for doc_name, doc_result in results['documents'].items()]. *)
Definition print_document (h : heap) (doc_name : value) (l : loc)
    : printing () :=
  let doc_result := deref h l in
  status ← lift (getitem doc_result "status");
  let status_emoji :=
    if decide (status = VStr "completed") then "✅" else "❌" in
  _ ← print (status_emoji +:+ " " +:+ format_value doc_name +:+ ": "
             +:+ format_value status);
  if decide (status = VStr "completed") then
    processing_time ← lift (getitem doc_result "processing_time");
    t ← lift (format_value_f 2 processing_time);
    print ("   ⏱️ Time: " +:+ t +:+ "s")
  else
    match doc_result !! "error" with
    | Some err => print ("   ❌ Error: " +:+ format_value err)
    | None => mret ()
    end.

Fixpoint print_documents (h : heap) (items : list (value * loc))
    : printing () :=
  match items with
  | [] => mret ()
  | (doc_name, l) :: items =>
      _ ← print_document h doc_name l;
      print_documents h items
  end.

(** The lines up to and including the average. *)
Definition print_statistics (results : batch_results) : printing () :=
  _ ← print (newline +:+ banner);
  _ ← print "📊 Medical Documents Batch Processing Results Summary";
  _ ← print banner;
  _ ← print ("📄 Total documents: "
             +:+ digits (Z.of_nat (total_documents results)));
  _ ← print ("✅ Successfully processed: "
             +:+ digits (Z.of_nat (completed results)));
  _ ← print ("❌ Processing failed: "
             +:+ digits (Z.of_nat (failed results)));
  _ ← print ("⏱️  Total time: " +:+ format_f 2 (total_time results) +:+ "s");
  rate ← lift (truediv (of_nat (completed results))
                       (of_nat (total_documents results)));
  _ ← print ("📊 Success rate: " +:+ format_f 1 (rate * of_nat 100)%Qc
             +:+ "%");
  if decide (0 < completed results)%nat then
    avg_time ← lift (truediv (total_time results)
                             (of_nat (completed results)));
    print ("⚡ Average processing time: " +:+ format_f 2 avg_time
           +:+ "s/document")
  else mret ().

(** The lines after the average. *)
Definition print_listing (h : heap) (results : batch_results) : printing () :=
  _ ← print (newline +:+ "📋 Detailed results:");
  _ ← print_documents h (odict_items (documents results));
  print banner.

Definition print_batch_summary (h : heap) (results : batch_results)
    : printing () :=
  _ ← print_statistics results;
  print_listing h results.
End rendering.

(** ** [setup_rag_system], [get_medical_pdf_files] and [main] *)

(** [str(self.working_dir / f"medical_doc_{document_id}")], the working
    directory [setup_rag_system] gives the RAG system of one document. *)
Definition doc_working_dir (working_dir document_id : string) : string :=
  joinpath working_dir ("medical_doc_" +:+ document_id).

(** The command line as [argparse] hands it over. [--files] takes one or
    more names; [--max-workers] is any integer. *)
Record Args : Type := mkArgs {
  args_all : bool;
  args_files : option (list string);
  args_data_dir : string;
  args_output : string;
  args_working_dir : string;
  args_max_workers : Z;
  args_api_key : option string;
  args_base_url : option string;
}.

(** What [main] asks of the process environment and of the file system. *)
Record World : Type := mkWorld {
  getenv : string → option string;   (* os.getenv(name) *)
  path_of : string → Path;           (* Path(s) *)
  child : Path → string → Path;      (* p / s *)
  path_exists : Path → bool;         (* p.exists() *)
  glob_pdf : Path → list Path;       (* list(p.glob("*.pdf")) *)
}.

(** Truth value of an optional string: [None] and the empty string are
    false. *)
Definition truthy (s : option string) : bool :=
  match s with
  | Some s => negb (String.eqb s "")
  | None => false
  end.

(** [a or b] *)
Definition py_or (a b : option string) : option string :=
  if truthy a then a else b.

Definition get_medical_pdf_files (w : World) (data_dir : Path) : list Path :=
  let raw_dir := child w data_dir "raw" in
  if path_exists w raw_dir then glob_pdf w raw_dir else [].

(** [not args.all and not args.files] *)
Definition no_selection (args : Args) : bool :=
  negb (args_all args) &&
  match args_files args with
  | Some (_ :: _) => false
  | _ => true
  end.

(** [args.api_key or os.getenv("OPENAI_API_KEY")] *)
Definition api_key_of (w : World) (args : Args) : option string :=
  py_or (args_api_key args) (getenv w "OPENAI_API_KEY").

(** The body of [for file_name in args.files]. *)
Definition add_if_exists (w : World) (raw_dir : Path)
    (file_paths : list Path) (file_name : string) : list Path :=
  let file_path := child w raw_dir file_name in
  if path_exists w file_path then file_paths ++ [file_path] else file_paths.

(** The files [main] settles on, once a selection was made. *)
Definition select_files (w : World) (args : Args) : list Path :=
  let data_dir := path_of w (args_data_dir args) in
  if args_all args then get_medical_pdf_files w data_dir
  else
    let raw_dir := child w data_dir "raw" in
    foldl (add_if_exists w raw_dir) [] (default [] (args_files args)).

(** How a call of [main] ends: what it has printed, and whether it
    returned or let an exception through. *)
Inductive outcome : Type :=
  | Return (stdout : list string)
  | Raise (stdout : list string) (e : error).

(** [main]: three guards that return before anything is run, then the
    batch and its report. [asyncio.Semaphore] refuses a negative value
    with [ValueError]; every exception is logged and raised again.
    Logging is not part of the model, nor is the key [total_batch_time]
    that [main] adds to the summary and nothing reads. *)
Inductive main (w : World) (env : nat → task_env)
    (str_number : Qc → string) (args : Args) : outcome → Prop :=
  | main_no_selection :
      no_selection args = true →
      main w env str_number args (Return [])
  | main_no_api_key :
      no_selection args = false →
      truthy (api_key_of w args) = false →
      main w env str_number args (Return [])
  | main_no_files :
      no_selection args = false →
      truthy (api_key_of w args) = true →
      select_files w args = [] →
      main w env str_number args (Return [])
  | main_negative_workers :
      no_selection args = false →
      truthy (api_key_of w args) = true →
      select_files w args ≠ [] →
      (args_max_workers args < 0)%Z →
      main w env str_number args (Raise [] ValueError)
  | main_batch_raises e :
      no_selection args = false →
      truthy (api_key_of w args) = true →
      select_files w args ≠ [] →
      (0 ≤ args_max_workers args)%Z →
      process_documents_batch (Z.to_nat (args_max_workers args))
        (select_files w args) (args_output args) env (inl e) →
      main w env str_number args (Raise [] e)
  | main_prints h results :
      no_selection args = false →
      truthy (api_key_of w args) = true →
      select_files w args ≠ [] →
      (0 ≤ args_max_workers args)%Z →
      process_documents_batch (Z.to_nat (args_max_workers args))
        (select_files w args) (args_output args) env (inr (h, results)) →
      main w env str_number args
        match print_batch_summary str_number h results [] with
        | (stdout, inr _) => Return stdout
        | (stdout, inl e) => Raise stdout e
        end.

(** * Vocabulary of the properties *)

(** ** The scheduler *)

(** The slots are conserved: free ones plus those held make the capacity. *)
Definition conserved (K : nat) (st : sched) : Prop :=
  sem_value st + holding st = K.

(** A finished task carries the outcome of its own body. *)
Definition sound (outs : list (Dict + Exception)) (n : nat) (st : sched)
    : Prop :=
  length (tasks st) = n ∧
  ∀ i r, tasks st !! i = Some (Finished r) → outs !! i = Some r.



(** ** The aggregation loop, read by value *)

(** The record the loop files for a result. *)
Definition synthesized (e : Exception) : Dict :=
  <["status" := VStr "failed"]> (<["error" := VStr (exc_str e)]> ∅).

Definition record (r : Dict + Exception) : Dict :=
  match r with
  | inl d => d
  | inr e => synthesized e
  end.

(** The key it is filed under. *)
Definition key (file_paths : list Path) (i : nat) (r : Dict + Exception)
    : option value :=
  match r with
  | inl d => d !! "file_name"
  | inr _ => VStr ∘ name <$> file_paths !! i
  end.

Definition is_completed (r : Dict + Exception) : bool :=
  match r with
  | inl d =>
      match d !! "status" with
      | Some status => bool_decide (status = VStr "completed")
      | None => false
      end
  | inr _ => false
  end.

Definition duration (r : Dict + Exception) : Qc :=
  match r with
  | inl d =>
      match d !! "processing_time" with
      | Some (VNum q) => q
      | _ => 0%Qc
      end
  | inr _ => 0%Qc
  end.

Definition sum_time (rs : list (Dict + Exception)) : Qc :=
  foldr (λ r acc, duration r + acc)%Qc 0%Qc rs.

(** A returned dict has the three fields the loop reads. *)
Definition readable (r : Dict + Exception) : Prop :=
  match r with
  | inl d =>
      is_Some (d !! "file_name") ∧ is_Some (d !! "status") ∧
      ∃ q, d !! "processing_time" = Some (VNum q)
  | inr _ => True
  end.

(** In heap [h] the gathered value [g] is the outcome [r]. *)
Definition denotes (h : heap) (g : gathered) (r : Dict + Exception) : Prop :=
  match g, r with
  | Ref l, inl d => h !! l = Some d
  | Exc e, inr e' => e = e'
  | _, _ => False
  end.

(** Every reference of [documents] points to an object. *)
Definition closed (h : heap) (batch : batch_results) : Prop :=
  ∀ k l, items (documents batch) !! k = Some l → is_Some (h !! l).

(** The keys listed are the keys mapped, each once. *)
Definition well_formed (d : odict) : Prop :=
  NoDup (keys d) ∧ ∀ k, k ∈ keys d ↔ is_Some (items d !! k).

(** The [documents] mapping by value. *)
Definition view (h : heap) (batch : batch_results) : gmap value Dict :=
  omap (λ l, h !! l) (items (documents batch)).

Fixpoint entries (file_paths : list Path) (i : nat)
    (rs : list (Dict + Exception)) : list (value * Dict) :=
  match rs with
  | [] => []
  | r :: rs =>
      (default VNone (key file_paths i r), record r)
      :: entries file_paths (S i) rs
  end.

Definition write (m : gmap value Dict) (kd : value * Dict) : gmap value Dict :=
  <[kd.1 := kd.2]> m.

Definition count_completed (rs : list (Dict + Exception)) : nat :=
  length (filter (λ r, is_completed r = true) rs).

Definition count_failed (rs : list (Dict + Exception)) : nat :=
  length (filter (λ r, is_completed r = false) rs).

(** What the summary is once the loop has run over readable results. *)
Record summarises (file_paths : list Path) (i : nat)
    (rs : list (Dict + Exception)) (h : heap) (batch : batch_results)
    (h' : heap) (batch' : batch_results) : Prop := {
  sum_heap : h ⊆ h';
  sum_closed : closed h' batch';
  sum_total : total_documents batch' = total_documents batch;
  sum_completed : completed batch' = completed batch + count_completed rs;
  sum_failed : failed batch' = failed batch + count_failed rs;
  sum_duration : total_time batch' = (total_time batch + sum_time rs)%Qc;
  sum_view :
    view h' batch' = foldl write (view h batch) (entries file_paths i rs);
}.

(** A gathered value read in a heap. *)
Definition reify (h : heap) (g : gathered) : Dict + Exception :=
  match g with
  | Ref l => inl (deref h l)
  | Exc e => inr e
  end.

(** Its reference, if it is one, points to an object. *)
Definition valid (h : heap) (g : gathered) : Prop :=
  match g with
  | Ref l => is_Some (h !! l)
  | Exc _ => True
  end.

(** The identity fields of an item, as [process_single_document] sets them. *)
Definition carries_identity (d : Dict) (file_path : Path) : Prop :=
  d !! "file_name" = Some (VStr (name file_path)) ∧
  d !! "file_path" = Some (VStr (path_str file_path)).

(** ** The report *)

(** The seven lines before the success rate. *)
Definition header (results : batch_results) : list string :=
  [ newline +:+ banner;
    "📊 Medical Documents Batch Processing Results Summary";
    banner;
    "📄 Total documents: " +:+ digits (Z.of_nat (total_documents results));
    "✅ Successfully processed: " +:+ digits (Z.of_nat (completed results));
    "❌ Processing failed: " +:+ digits (Z.of_nat (failed results));
    "⏱️  Total time: " +:+ format_f 2 (total_time results) +:+ "s" ].

Definition rate_line (results : batch_results) : string :=
  "📊 Success rate: "
  +:+ format_f 1 (of_nat (completed results)
                  / of_nat (total_documents results) * of_nat 100)%Qc
  +:+ "%".

Definition average_line (avg_time : Qc) : string :=
  "⚡ Average processing time: " +:+ format_f 2 avg_time +:+ "s/document".

Fixpoint starts_with (p line : string) : bool :=
  match p, line with
  | EmptyString, _ => true
  | String a p, String b line => Ascii.eqb a b && starts_with p line
  | String _ _, EmptyString => false
  end.

Definition is_average (line : string) : bool :=
  starts_with "⚡ Average processing time: " line.

(** The statistics lines after the header. *)
Definition statistics (results : batch_results) : list string :=
  rate_line results ::
  (if decide (0 < completed results)
   then [average_line (total_time results / of_nat (completed results))%Qc]
   else []).

(** What a part of the report adds to the output: never a division by
    zero, never a line that reads as an average. *)
Definition harmless (p : printing ()) : Prop :=
  ∀ out, ∃ new r,
    p out = ((out ++ new)%list, r) ∧
    r ≠ inl ZeroDivisionError ∧
    Forall (λ line, is_average line = false) new.

(** ** Outcomes of the items *)

(** The processing of the item returned. *)
Definition succeeded (e : task_env) : bool :=
  match e with
  | Runs r =>
      match body r with
      | Returns _ => true
      | Raises _ => false
      end
  | Escapes _ => false
  end.

(** The time between the two clock readings of a task that made them. *)
Definition elapsed (e : task_env) : Qc :=
  match e with
  | Runs r => (end_time r - start_time r)%Qc
  | Escapes _ => 0%Qc
  end.

(** The positions [0 .. n-1] that satisfy [f]. *)
Definition positions (f : nat → bool) (n : nat) : list nat :=
  filter (λ i, f i = true) (seq 0 n).

(** ** Document identifiers *)

(** The number a string of decimal digits stands for. *)
Definition parse_decimal (s : string) : option nat :=
  Nat.of_uint <$> NilEmpty.uint_of_string s.

(** ** Sample batches *)

Definition pdf (base : string) : Path :=
  {| path_str := "data/raw/" +:+ base +:+ ".pdf";
     name := base +:+ ".pdf";
     stem := base |}.

Definition three_files : list Path := [pdf "a"; pdf "b"; pdf "c"].

(** The same file submitted twice, around another one. *)
Definition twice_a : list Path := [pdf "a"; pdf "b"; pdf "a"].

(** One success, one fault inside the [try], one fault outside it. *)
Definition mixed_env (i : nat) : task_env :=
  match i with
  | 0 => Runs (mkRun (Q2Qc 10) (Returns "ok") (Q2Qc 11))
  | 1 => Runs (mkRun (Q2Qc 10) (Raises (mkException "parse error"))
                 (Q2Qc (21 # 2)))
  | _ => Escapes (mkException "boom")
  end.

(** Two tasks hold the two slots, the third waits. *)
Definition two_holding : sched :=
  {| sem_value := 0; tasks := [Holding; Holding; Waiting] |}.



(** [a.pdf] succeeds in 1.0s, [b.pdf] raises "parse error" between its two
    clock readings, [c.pdf] succeeds in 2.0s. *)
Definition scenario (start_a : Qc) (text_a : string) (start_b stop_b : Qc)
    (start_c : Qc) (text_c : string) (i : nat) : task_env :=
  match i with
  | 0 => Runs (mkRun start_a (Returns text_a) (start_a + 1)%Qc)
  | 1 => Runs (mkRun start_b (Raises (mkException "parse error")) stop_b)
  | _ => Runs (mkRun start_c (Returns text_c) (start_c + (1 + 1))%Qc)
  end.

Definition mixed_store : heap * list gathered :=
  store ∅ (outcomes three_files "out" mixed_env).


Ltac acquire i v :=
  eapply rtc_l; [apply (step_acquire _ _ i v); reflexivity|].
Ltac release i :=
  eapply rtc_l; [eapply (step_release _ _ i); reflexivity|].

(** * Properties *)

(** ** The scheduler *)

Section scheduler.
Variable outs : list (Dict + Exception).

Lemma holding_insert_waiting ts i :
  ts !! i = Some Waiting →
  length (filter (λ t, t = Holding) (<[i := Holding]> ts))
  = S (length (filter (λ t, t = Holding) ts)).
Proof.
  intros Hi.
  rewrite <- (take_drop_middle ts i Waiting Hi) at 2.
  rewrite insert_take_drop by (by eapply lookup_lt_Some).
  rewrite !filter_app, !filter_cons.
  rewrite (decide_True (P := Holding = Holding)) by done.
  rewrite (decide_False (P := Waiting = Holding)) by done.
  rewrite !length_app. simpl. lia.
Qed.

Lemma holding_insert_finished ts i r :
  ts !! i = Some Holding →
  S (length (filter (λ t, t = Holding) (<[i := Finished r]> ts)))
  = length (filter (λ t, t = Holding) ts).
Proof.
  intros Hi.
  rewrite <- (take_drop_middle ts i Holding Hi) at 2.
  rewrite insert_take_drop by (by eapply lookup_lt_Some).
  rewrite !filter_app, !filter_cons.
  rewrite (decide_True (P := Holding = Holding)) by done.
  rewrite (decide_False (P := Finished r = Holding)) by done.
  rewrite !length_app. simpl. lia.
Qed.

Lemma step_conserved K st st' :
  step outs st st' → conserved K st → conserved K st'.
Proof.
  unfold conserved, holding.
  destruct 1 as [st i v Hi Hv | st i r Hi Hr]; simpl; intros HK.
  - rewrite holding_insert_waiting by done. lia.
  - pose proof (holding_insert_finished _ _ r Hi). lia.
Qed.

Lemma step_sound n st st' :
  step outs st st' → sound outs n st → sound outs n st'.
Proof.
  destruct 1 as [st i v Hi Hv | st i r Hi Hr]; simpl;
    intros [Hlen Hfin]; split; simpl; rewrite ?length_insert; try done.
  - intros j r. destruct (decide (i = j)) as [->|Hne].
    + rewrite list_lookup_insert_eq by (by eapply lookup_lt_Some). done.
    + rewrite list_lookup_insert_ne by done. apply Hfin.
  - intros j r'. destruct (decide (i = j)) as [->|Hne].
    + rewrite list_lookup_insert_eq by (by eapply lookup_lt_Some).
      congruence.
    + rewrite list_lookup_insert_ne by done. apply Hfin.
Qed.

Lemma init_conserved K n : conserved K (init K n).
Proof.
  unfold conserved, holding, init. simpl.
  induction n as [|n IH]; simpl; [lia|].
  rewrite filter_cons, decide_False by done. done.
Qed.

Lemma init_sound K n : sound outs n (init K n).
Proof.
  split; simpl; [by rewrite length_replicate|].
  intros i r [? _]%lookup_replicate. done.
Qed.

Lemma reachable_conserved K n st :
  rtc (step outs) (init K n) st → conserved K st.
Proof.
  intros H. apply rtc_ind_r with (x := init K n) (P := conserved K) in H;
    eauto using init_conserved, step_conserved.
Qed.

Lemma reachable_sound K n st :
  rtc (step outs) (init K n) st → sound outs n st.
Proof.
  intros H. apply rtc_ind_r with (x := init K n) (P := sound outs n) in H;
    eauto using init_sound, step_sound.
Qed.

(** [gather] returns the outcomes in task order, whatever the
    interleaving was. *)
Lemma gather_sound st rs :
  sound outs (length outs) st → gather st = Some rs → rs = outs.
Proof.
  intros [Hlen Hfin] Hg. unfold gather in Hg.
  apply mapM_Some in Hg.
  apply list_eq. intros i.
  destruct (rs !! i) as [r|] eqn:Hr.
  - destruct (Forall2_lookup_r _ _ _ _ _ Hg Hr) as (t & Ht & Hf).
    destruct t; simplify_eq/=. symmetry. by apply Hfin.
  - symmetry. apply lookup_ge_None. apply lookup_ge_None in Hr.
    apply Forall2_length in Hg. lia.
Qed.


Lemma no_holding ts :
  Forall (λ t, t ≠ Holding) ts →
  length (filter (λ t, t = Holding) ts) = 0.
Proof.
  induction 1 as [|t ts Ht _ IH]; [done|].
  rewrite filter_cons, decide_False by done. done.
Qed.

End scheduler.

Lemma document_view h batch k : document h batch k = view h batch !! k.
Proof. unfold document, view. by rewrite lookup_omap. Qed.

Lemma denotes_mono h h' g r : h ⊆ h' → denotes h g r → denotes h' g r.
Proof.
  intros Hsub. destruct g, r; simpl; try done.
  intros Hl. by eapply lookup_weaken.
Qed.

Lemma fresh_lookup (h : heap) : h !! fresh (dom h) = None.
Proof. apply not_elem_of_dom, is_fresh. Qed.

Lemma view_alloc h batch l d :
  closed h batch → h !! l = None →
  omap (λ l', <[l := d]> h !! l') (items (documents batch)) = view h batch.
Proof.
  intros Hcl Hl. apply map_eq. intros k. unfold view.
  rewrite !lookup_omap.
  destruct (items (documents batch) !! k) as [l'|] eqn:Hk; simpl; [|done].
  destruct (Hcl _ _ Hk) as [d' Hd'].
  rewrite lookup_insert_ne by congruence. done.
Qed.

Lemma store_denotes rs : ∀ h0 h gs,
  store h0 rs = (h, gs) → h0 ⊆ h ∧ Forall2 (denotes h) gs rs.
Proof.
  induction rs as [|[d|e] rs IH]; intros h0 h gs; simpl.
  - intros [= <- <-]. split; [done|constructor].
  - destruct (store _ rs) as [h' gs'] eqn:Hst. intros [= <- <-].
    apply IH in Hst as [Hsub Hall].
    assert (h0 ⊆ <[fresh (dom h0) := d]> h0) as Hins
      by apply insert_subseteq, fresh_lookup.
    split; [by etrans|]. constructor; [|done]. simpl.
    eapply lookup_weaken; [|done]. apply lookup_insert_eq.
  - destruct (store _ rs) as [h' gs'] eqn:Hst. intros [= <- <-].
    apply IH in Hst as [Hsub Hall]. split; [done|]. by constructor.
Qed.

(** One iteration on a readable result: the counts move by one, the
    duration of a returned dict is added, the record is filed under its
    key, and no object that existed before is touched. *)
Lemma aggregate_step_ok file_paths h batch i g r :
  denotes h g r → readable r → i < length file_paths → closed h batch →
  ∃ h' batch',
    aggregate_step file_paths (h, batch) i g = inr (h', batch') ∧
    h ⊆ h' ∧ closed h' batch' ∧
    total_documents batch' = total_documents batch ∧
    completed batch'
      = completed batch + (if is_completed r then 1 else 0) ∧
    failed batch'
      = failed batch + (if is_completed r then 0 else 1) ∧
    total_time batch' = (total_time batch + duration r)%Qc ∧
    view h' batch'
      = write (view h batch) (default VNone (key file_paths i r), record r).
Proof.
  intros Hden Hread Hi Hcl.
  destruct g as [l|e], r as [d|e']; simpl in Hden; try done.
  - destruct Hread as ([k Hk] & [s Hs] & [q Hq]).
    assert (deref h l = d) as Hd by (unfold deref; by rewrite Hden).
    unfold aggregate_step, getitem, is_completed, duration, key.
    rewrite Hd, Hk, Hs, Hq. cbn.
    eexists _, _. split; [done|]. cbn.
    split_and!; try done.
    + intros k' l'. cbn. rewrite lookup_insert. case_decide; [|apply Hcl].
      intros [= <-]. eauto.
    + case_decide; [rewrite bool_decide_eq_true_2|rewrite bool_decide_eq_false_2];
        done || lia.
    + case_decide; [rewrite bool_decide_eq_true_2|rewrite bool_decide_eq_false_2];
        done || lia.
    + unfold view, write. simpl. by apply omap_insert_Some.
  - subst e'. destruct (lookup_lt_is_Some_2 file_paths i Hi) as [fp Hfp].
    unfold aggregate_step, index, key. rewrite Hfp. cbn.
    eexists _, _. split; [done|]. cbn.
    split_and!; try done; try lia.
    + apply insert_subseteq, fresh_lookup.
    + intros k' l'. cbn. rewrite lookup_insert. case_decide.
      * intros [= <-]. rewrite lookup_insert_eq. eauto.
      * intros Hk'. destruct (Hcl _ _ Hk') as [d' Hd'].
        exists d'. rewrite lookup_insert_ne; [done|].
        intros <-. by rewrite fresh_lookup in Hd'.
    + by rewrite Qcplus_0_r.
    + unfold view at 1, write. simpl.
      rewrite (omap_insert_Some _ _ _ _ (synthesized e))
        by apply lookup_insert_eq.
      f_equal. apply view_alloc; [done|apply fresh_lookup].
Qed.

(** An iteration that does not raise read a readable result. *)
Lemma aggregate_step_inv file_paths h batch i g r x :
  aggregate_step file_paths (h, batch) i g = inr x →
  denotes h g r → readable r ∧ (is_Some (file_paths !! i) ∨ ∃ d, r = inl d).
Proof.
  destruct g as [l|e], r as [d|e']; simpl; try done.
  - intros Hstep Hl.
    assert (deref h l = d) as Hd by (unfold deref; by rewrite Hl).
    unfold getitem in Hstep. rewrite Hd in Hstep.
    destruct (d !! "file_name") as [k|]; [|done]. cbn in Hstep.
    destruct (d !! "status") as [s|]; [|done]. cbn in Hstep.
    destruct (d !! "processing_time") as [[| |q]|]; try done.
    split; [|eauto]. split_and!; eauto.
  - unfold index. destruct (file_paths !! i); [|done]. eauto.
Qed.

Lemma count_completed_cons r rs :
  count_completed (r :: rs)
  = (if is_completed r then 1 else 0) + count_completed rs.
Proof.
  unfold count_completed. rewrite filter_cons.
  destruct (is_completed r); by case_decide.
Qed.

Lemma count_failed_cons r rs :
  count_failed (r :: rs) = (if is_completed r then 0 else 1) + count_failed rs.
Proof.
  unfold count_failed. rewrite filter_cons.
  destruct (is_completed r); by case_decide.
Qed.

Lemma count_total rs : count_completed rs + count_failed rs = length rs.
Proof.
  induction rs as [|r rs IH]; [done|].
  rewrite count_completed_cons, count_failed_cons. simpl.
  destruct (is_completed r); lia.
Qed.

Lemma count_failed_elem r rs :
  r ∈ rs → is_completed r = false → 1 ≤ count_failed rs.
Proof.
  induction 1 as [r rs|r r' rs _ IH]; intros Hr; rewrite count_failed_cons.
  - rewrite Hr. lia.
  - specialize (IH Hr). lia.
Qed.

Lemma empty_well_formed : well_formed empty_odict.
Proof.
  split; [constructor|]. intros k. simpl. rewrite lookup_empty.
  split; [by intros ?%elem_of_nil|by intros [? ?]].
Qed.

Lemma setitem_well_formed k l d : well_formed d → well_formed (setitem k l d).
Proof.
  intros [Hnd Hkeys]. unfold setitem. split; simpl.
  - case_decide as Hk; [done|].
    apply NoDup_app. split_and!; [done| |apply NoDup_singleton].
    intros k' Hk' ->%list_elem_of_singleton. by apply Hk, Hkeys.
  - intros k'. rewrite lookup_insert. case_decide as Hk.
    + case_decide as Hkk'; [subst k'|by apply Hkeys].
      split; [eauto|]. intros _. by apply Hkeys.
    + rewrite elem_of_app, list_elem_of_singleton, Hkeys.
      case_decide as Hkk'; [subst k'|]; split; eauto.
      intros [?|?]; [done|congruence].
Qed.

Lemma length_omap_total {A B} (f : A → option B) (xs : list A) :
  Forall (λ x, is_Some (f x)) xs → length (omap f xs) = length xs.
Proof.
  induction 1 as [|x xs [y Hy] _ IH]; [done|].
  cbn. rewrite Hy. cbn. by rewrite IH.
Qed.

Lemma well_formed_length d :
  well_formed d → length (odict_items d) = size (items d).
Proof.
  intros [Hnd Hkeys].
  assert (length (odict_items d) = length (keys d)) as ->.
  { unfold odict_items. apply length_omap_total.
    apply Forall_forall. intros k Hk. apply Hkeys in Hk as [l ->]. eauto. }
  rewrite <- size_dom, <- (size_list_to_set (C := gset value)) by done.
  f_equal. apply set_eq. intros k.
  by rewrite elem_of_list_to_set, elem_of_dom.
Qed.

Lemma aggregate_step_documents file_paths h batch i g h' batch' :
  aggregate_step file_paths (h, batch) i g = inr (h', batch') →
  ∃ k l, documents batch' = setitem k l (documents batch).
Proof.
  destruct g as [l|e]; unfold aggregate_step.
  - unfold getitem.
    destruct (deref h l !! "file_name") as [k|]; [|done]. cbn.
    destruct (deref h l !! "status") as [st|]; [|done]. cbn.
    destruct (deref h l !! "processing_time") as [[| |q]|]; try done. cbn.
    intros [= <- <-]. eauto.
  - unfold index. destruct (file_paths !! i) as [file_path|]; [|done]. cbn.
    intros [= <- <-]. eauto.
Qed.

Lemma aggregate_from_well_formed file_paths gs : ∀ i h batch h' batch',
  aggregate_from file_paths i gs (h, batch) = inr (h', batch') →
  well_formed (documents batch) → well_formed (documents batch').
Proof.
  induction gs as [|g gs IH]; intros i h batch h' batch'.
  - by intros [= <- <-].
  - intros Hagg Hwf. cbn [aggregate_from] in Hagg.
    destruct (aggregate_step file_paths (h, batch) i g) as [e|[h1 b1]] eqn:Hs;
      [done|].
    apply aggregate_step_documents in Hs as (k & l & Hdocs).
    eapply IH; [exact Hagg|].
    rewrite Hdocs. by apply setitem_well_formed.
Qed.

Lemma aggregate_from_cons file_paths i g gs acc :
  aggregate_from file_paths i (g :: gs) acc
  = aggregate_step file_paths acc i g ≫= aggregate_from file_paths (S i) gs.
Proof. done. Qed.

Lemma aggregate_from_ok file_paths gs : ∀ rs i h batch,
  Forall2 (denotes h) gs rs → Forall readable rs →
  i + length gs ≤ length file_paths → closed h batch →
  ∃ h' batch',
    aggregate_from file_paths i gs (h, batch) = inr (h', batch') ∧
    summarises file_paths i rs h batch h' batch'.
Proof.
  induction gs as [|g gs IH]; intros rs i h batch Hden Hread Hlen Hcl.
  - apply Forall2_nil_inv_l in Hden as ->.
    exists h, batch. split; [done|]. split; simpl; try done; try lia.
    by rewrite Qcplus_0_r.
  - apply Forall2_cons_inv_l in Hden as (r & rs' & Hg & Hden & ->).
    apply Forall_cons in Hread as [Hr Hread]. simpl in Hlen.
    destruct (aggregate_step_ok file_paths h batch i g r)
      as (h1 & b1 & Hstep & Hsub & Hcl1 & Ht & Hc & Hf & Hd & Hv);
      [done|done|lia|done|].
    destruct (IH rs' (S i) h1 b1) as (h2 & b2 & Hagg & Hsum);
      [|done|lia|done|].
    { eapply Forall2_impl; [done|]. eauto using denotes_mono. }
    exists h2, b2. split.
    { rewrite aggregate_from_cons, Hstep. done. }
    destruct Hsum. split; simpl; try done.
    + by etrans.
    + congruence.
    + rewrite count_completed_cons. lia.
    + rewrite count_failed_cons. lia.
    + rewrite sum_duration0, Hd. by rewrite Qcplus_assoc.
    + rewrite sum_view0, Hv. done.
Qed.

Lemma aggregate_from_inv file_paths gs : ∀ rs i h batch x,
  aggregate_from file_paths i gs (h, batch) = inr x →
  Forall2 (denotes h) gs rs → i + length gs ≤ length file_paths →
  closed h batch → Forall readable rs.
Proof.
  induction gs as [|g gs IH]; intros rs i h batch x Hagg Hden Hlen Hcl.
  - apply Forall2_nil_inv_l in Hden as ->. constructor.
  - apply Forall2_cons_inv_l in Hden as (r & rs' & Hg & Hden & ->).
    rewrite aggregate_from_cons in Hagg. simpl in Hlen.
    destruct (aggregate_step file_paths (h, batch) i g) as [e|[h1 b1]] eqn:Hstep;
      [done|].
    destruct (aggregate_step_inv _ _ _ _ _ _ _ Hstep Hg) as [Hr _].
    destruct (aggregate_step_ok file_paths h batch i g r)
      as (h1' & b1' & Hstep' & Hsub & Hcl1 & _); [done|done|lia|done|].
    rewrite Hstep in Hstep'. injection Hstep' as <- <-.
    constructor; [done|].
    eapply (IH rs' (S i) h1 b1); [done| |lia|done].
    eapply Forall2_impl; [done|]. eauto using denotes_mono.
Qed.

(** ** Pure facts about last-write-wins filing *)

Lemma foldl_write_other (es : list (value * Dict)) : ∀ m k,
  (∀ j k' d', es !! j = Some (k', d') → k' ≠ k) →
  foldl write m es !! k = m !! k.
Proof.
  induction es as [|[k0 d0] es IH]; intros m k Hne; [done|].
  simpl. rewrite IH.
  - unfold write. simpl. apply lookup_insert_ne. by apply (Hne 0 k0 d0).
  - intros j k' d' Hj. by apply (Hne (S j) k' d').
Qed.

Lemma foldl_write_last (es : list (value * Dict)) : ∀ m i k d,
  es !! i = Some (k, d) →
  (∀ j k' d', i < j → es !! j = Some (k', d') → k' ≠ k) →
  foldl write m es !! k = Some d.
Proof.
  induction es as [|[k0 d0] es IH]; intros m i k d Hi Hlast; [done|].
  destruct i as [|i]; simpl in *.
  - injection Hi as -> ->. rewrite foldl_write_other.
    + unfold write. simpl. apply lookup_insert_eq.
    + intros j k' d' Hj. apply (Hlast (S j) k' d'); [lia|done].
  - eapply IH; [done|].
    intros j k' d' Hij Hj. apply (Hlast (S j) k' d'); [lia|done].
Qed.

Lemma foldl_write_dom (es : list (value * Dict)) : ∀ m,
  dom (foldl write m es) = dom m ∪ list_to_set es.*1.
Proof.
  induction es as [|[k0 d0] es IH]; intros m; simpl.
  - set_solver.
  - rewrite IH. unfold write. simpl. rewrite dom_insert_L. set_solver.
Qed.

Lemma size_list_to_set_le (ks : list value) :
  size (list_to_set ks : gset value) ≤ length ks.
Proof.
  induction ks as [|k ks IH].
  - rewrite list_to_set_nil, size_empty. done.
  - rewrite list_to_set_cons. simpl.
    destruct (decide (k ∈ (list_to_set ks : gset value))) as [Hin|Hnin].
    + replace ({[k]} ∪ list_to_set ks) with (list_to_set ks : gset value)
        by set_solver. lia.
    + rewrite size_union by set_solver. rewrite size_singleton. lia.
Qed.

Lemma size_list_to_set_dup (ks : list value) :
  ¬ NoDup ks → size (list_to_set ks : gset value) < length ks.
Proof.
  induction ks as [|k ks IH]; intros Hdup.
  - destruct Hdup. constructor.
  - rewrite list_to_set_cons. simpl.
    destruct (decide (k ∈ ks)) as [Hin|Hnin].
    + replace ({[k]} ∪ list_to_set ks) with (list_to_set ks : gset value)
        by set_solver.
      pose proof (size_list_to_set_le ks). lia.
    + rewrite size_union by set_solver. rewrite size_singleton.
      assert (¬ NoDup ks) as Hks by (intros ?; apply Hdup; by constructor).
      specialize (IH Hks). lia.
Qed.

Lemma entries_lookup file_paths rs : ∀ i j,
  entries file_paths i rs !! j
  = (λ r, (default VNone (key file_paths (i + j) r), record r)) <$> rs !! j.
Proof.
  induction rs as [|r rs IH]; intros i j; [done|].
  destruct j as [|j]; simpl.
  - by rewrite Nat.add_0_r.
  - rewrite IH. by rewrite Nat.add_succ_r.
Qed.

Lemma view_dom h batch :
  closed h batch → dom (view h batch) = dom (items (documents batch)).
Proof.
  intros Hcl. apply set_eq. intros k. rewrite !elem_of_dom.
  unfold view. rewrite lookup_omap.
  destruct (items (documents batch) !! k) as [l|] eqn:Hk; simpl.
  - split; [eauto|]. intros _. by apply (Hcl k).
  - split; intros [? ?]; done.
Qed.

(** ** Records of [process_single_document] *)

Lemma lookup_file_name file_path output_dir document_id r :
  process_single_document file_path output_dir document_id r !! "file_name"
  = Some (VStr (name file_path)).
Proof. unfold process_single_document. destruct (body r); reflexivity. Qed.

Lemma lookup_file_path file_path output_dir document_id r :
  process_single_document file_path output_dir document_id r !! "file_path"
  = Some (VStr (path_str file_path)).
Proof. unfold process_single_document. destruct (body r); reflexivity. Qed.

Lemma lookup_status file_path output_dir document_id r :
  process_single_document file_path output_dir document_id r !! "status"
  = Some (VStr match body r with
               | Returns _ => "completed"
               | Raises _ => "failed"
               end).
Proof. unfold process_single_document. destruct (body r); reflexivity. Qed.

Lemma lookup_processing_time file_path output_dir document_id r :
  process_single_document file_path output_dir document_id r
    !! "processing_time"
  = Some (VNum (end_time r - start_time r)%Qc).
Proof. unfold process_single_document. destruct (body r); reflexivity. Qed.

Lemma lookup_error file_path output_dir document_id r :
  process_single_document file_path output_dir document_id r !! "error"
  = Some match body r with
         | Returns _ => VNone
         | Raises e => VStr (exc_str e)
         end.
Proof. unfold process_single_document. destruct (body r); reflexivity. Qed.

Lemma lookup_test_query_result file_path output_dir document_id r :
  process_single_document file_path output_dir document_id r
    !! "test_query_result"
  = match body r with
    | Returns test_result => Some (VStr (truncate test_result))
    | Raises _ => None
    end.
Proof. unfold process_single_document. destruct (body r); reflexivity. Qed.

(** ** The batch as a whole *)

Section batch.
Variable max_workers : nat.
Variable file_paths : list Path.
Variable output_dir : string.
Variable env : nat → task_env.

Let outs := outcomes file_paths output_dir env.

Lemma outcomes_lookup i :
  outs !! i
  = (λ file_path,
       process_with_semaphore output_dir file_path (doc_id i) (env i))
    <$> file_paths !! i.
Proof. unfold outs, outcomes. by rewrite list_lookup_imap. Qed.

Lemma outcomes_length : length outs = length file_paths.
Proof. unfold outs, outcomes. by rewrite length_imap. Qed.

Lemma outcome_readable file_path document_id e :
  readable (process_with_semaphore output_dir file_path document_id e).
Proof.
  destruct e as [r|e]; simpl; [|done].
  rewrite lookup_file_name, lookup_status, lookup_processing_time. eauto.
Qed.

Lemma outcomes_readable : Forall readable outs.
Proof.
  apply Forall_lookup. intros i r. rewrite outcomes_lookup.
  destruct (file_paths !! i); intros [= <-]. apply outcome_readable.
Qed.

Lemma outcome_key i file_path document_id e :
  file_paths !! i = Some file_path →
  key file_paths i
    (process_with_semaphore output_dir file_path document_id e)
  = Some (VStr (name file_path)).
Proof.
  intros Hi. destruct e as [r|e]; simpl.
  - apply lookup_file_name.
  - by rewrite Hi.
Qed.

Lemma outcomes_entries :
  entries file_paths 0 outs
  = imap (λ i file_path,
            (VStr (name file_path),
             record (process_with_semaphore output_dir file_path
                       (doc_id i) (env i)))) file_paths.
Proof.
  apply list_eq. intros i.
  rewrite entries_lookup, list_lookup_imap, outcomes_lookup. simpl.
  destruct (file_paths !! i) as [file_path|] eqn:Hi; [|done]. simpl.
  by rewrite (outcome_key i file_path _ _ Hi).
Qed.

(** The interleaving has no say in what [gather] hands to the loop. *)
Lemma batch_deterministic res :
  process_documents_batch max_workers file_paths output_dir env res →
  ∃ h gs, store ∅ outs = (h, gs) ∧ res = aggregate h file_paths gs.
Proof.
  destruct 1 as [st rs h gs Hrtc Hg Hst].
  apply reachable_sound in Hrtc. fold outs in Hrtc.
  rewrite <- outcomes_length in Hrtc.
  apply (gather_sound _ _ _ Hrtc) in Hg as ->. eauto.
Qed.


(** The summary of a batch, whatever the interleaving. *)
Lemma batch_summary res :
  process_documents_batch max_workers file_paths output_dir env res →
  ∃ h batch,
    res = inr (h, batch) ∧
    closed h batch ∧
    total_documents batch = length file_paths ∧
    completed batch = count_completed outs ∧
    failed batch = count_failed outs ∧
    total_time batch = sum_time outs ∧
    view h batch = foldl write ∅ (entries file_paths 0 outs).
Proof.
  intros (h0 & gs & Hst & ->)%batch_deterministic.
  apply store_denotes in Hst as [_ Hden].
  destruct (aggregate_from_ok file_paths gs outs 0 h0 (initial file_paths))
    as (h & batch & Hagg & Hsum);
    [done|apply outcomes_readable| |done|].
  { apply Forall2_length in Hden. rewrite Hden, outcomes_length. simpl. lia. }
  exists h, batch. split; [apply Hagg|].
  destruct Hsum as [_ Hcl Ht Hc Hf Hd Hv]. split_and!; try done.
  rewrite Hd. apply Qcplus_0_l.
Qed.
End batch.

(** ** The claims *)



(** C2: in every state a batch run can reach, at most K tasks are inside
    [async with semaphore]; free and held slots always add up to K; a
    waiting task starts only by taking a free slot; a task that holds a
    slot gives it back when its body ends, with a value or with an
    exception alike; and when [gather] returns, all K slots are free. *)
Theorem gate_never_exceeded K file_paths output_dir env st :
  let outs := outcomes file_paths output_dir env in
  rtc (step outs) (init K (length file_paths)) st →
  holding st ≤ K ∧
  sem_value st + holding st = K ∧
  (∀ st' i, step outs st st' →
     tasks st !! i = Some Waiting → tasks st' !! i ≠ Some Waiting →
     tasks st' !! i = Some Holding ∧ sem_value st = S (sem_value st')) ∧
  (∀ i r, tasks st !! i = Some Holding → outs !! i = Some r →
     ∃ st', step outs st st' ∧ tasks st' !! i = Some (Finished r) ∧
            sem_value st' = S (sem_value st) ∧ holding st = S (holding st')) ∧
  (∀ rs, gather st = Some rs → sem_value st = K).
Proof.
  intros outs Hrtc.
  pose proof (reachable_conserved _ _ _ _ Hrtc) as Hc.
  unfold conserved in Hc. split_and!; [lia|done| | |].
  - intros st' i Hstep Hw Hw'.
    destruct Hstep as [st j v Hj Hv | st j r Hj Hr]; simpl in *.
    + destruct (decide (j = i)) as [->|Hne].
      * rewrite list_lookup_insert_eq by (by eapply lookup_lt_Some). done.
      * rewrite list_lookup_insert_ne in Hw' by done. done.
    + destruct (decide (j = i)) as [->|Hne]; [congruence|].
      rewrite list_lookup_insert_ne in Hw' by done. done.
  - intros i r Hi Hr.
    exists {| sem_value := S (sem_value st);
              tasks := <[i := Finished r]> (tasks st) |}.
    split_and!; simpl.
    + by constructor.
    + apply list_lookup_insert_eq. by eapply lookup_lt_Some.
    + done.
    + unfold holding. simpl. symmetry. by apply holding_insert_finished.
  - intros rs Hg. unfold gather in Hg. apply mapM_Some in Hg.
    unfold holding in Hc. rewrite no_holding in Hc; [lia|].
    apply Forall_lookup. intros i t Ht ->.
    destruct (Forall2_lookup_l _ _ _ _ _ Hg Ht) as (r & _ & Hf). done.
Qed.

Lemma gate_never_exceeded_witness :
  let outs := outcomes three_files "out" mixed_env in
  rtc (step outs) (init 2 (length three_files)) two_holding ∧
  holding two_holding ≤ 2 ∧
  sem_value two_holding + holding two_holding = 2 ∧
  (∀ st' i, step outs two_holding st' →
     tasks two_holding !! i = Some Waiting → tasks st' !! i ≠ Some Waiting →
     tasks st' !! i = Some Holding ∧ sem_value two_holding = S (sem_value st')) ∧
  (∀ i r, tasks two_holding !! i = Some Holding → outs !! i = Some r →
     ∃ st', step outs two_holding st' ∧ tasks st' !! i = Some (Finished r) ∧
            sem_value st' = S (sem_value two_holding) ∧
            holding two_holding = S (holding st')) ∧
  (∀ rs, gather two_holding = Some rs → sem_value two_holding = 2).
Proof.
  intros outs.
  assert (rtc (step outs) (init 2 (length three_files)) two_holding) as Hrtc.
  { eapply rtc_l; [apply (step_acquire outs _ 0 1); reflexivity|].
    eapply rtc_l; [apply (step_acquire outs _ 1 0); reflexivity|].
    apply rtc_refl. }
  split; [exact Hrtc|].
  exact (gate_never_exceeded 2 three_files "out" mixed_env two_holding Hrtc).
Defined.

Lemma length_append (s t : string) :
  String.length (s +:+ t) = String.length s + String.length t.
Proof. induction s as [|c s IH]; simpl; [done|]. by rewrite IH. Qed.

Lemma length_substring_le (n : nat) : ∀ s : string,
  String.length (String.substring 0 n s) ≤ n.
Proof.
  induction n as [|n IH]; intros [|c s]; simpl; try lia.
  specialize (IH s). lia.
Qed.

Lemma truncate_length test_result :
  String.length (truncate test_result) ≤ 203.
Proof.
  unfold truncate. case_decide; [|lia].
  rewrite length_append. pose proof (length_substring_le 200 test_result).
  simpl String.length at 2. lia.
Qed.

(** C8: in the record [process_single_document] returns, [status] is
    [completed] or [failed]; [error] holds a description only when the
    status is [failed], where it is the text of the exception, and holds
    [None] otherwise; [test_query_result] is a key of the record only when
    the status is [completed], where it is the validation answer cut to
    200 characters plus an ellipsis. *)
Theorem error_only_on_failure_payload_only_on_success
    file_path output_dir document_id r :
  let d := process_single_document file_path output_dir document_id r in
  (d !! "status" = Some (VStr "completed") ∨
   d !! "status" = Some (VStr "failed")) ∧
  (∀ v, d !! "error" = Some v → v ≠ VNone →
        d !! "status" = Some (VStr "failed")) ∧
  (d !! "status" = Some (VStr "failed") →
   ∃ e, body r = Raises e ∧ d !! "error" = Some (VStr (exc_str e))) ∧
  (d !! "status" ≠ Some (VStr "failed") → d !! "error" = Some VNone) ∧
  (is_Some (d !! "test_query_result") →
   d !! "status" = Some (VStr "completed")) ∧
  (d !! "status" = Some (VStr "completed") →
   ∃ test_result,
     body r = Returns test_result ∧
     d !! "test_query_result" = Some (VStr (truncate test_result)) ∧
     String.length (truncate test_result) ≤ 203) ∧
  (d !! "status" ≠ Some (VStr "completed") → d !! "test_query_result" = None).
Proof.
  intros d. subst d.
  rewrite lookup_status, lookup_error, lookup_test_query_result.
  destruct (body r) as [test_result|e]; split_and!;
    try done; eauto using truncate_length.
  intros v [= <-] Hv. by destruct Hv.
Qed.



Section filing.
Variable max_workers : nat.
Variable file_paths : list Path.
Variable output_dir : string.
Variable env : nat → task_env.

Let outs := outcomes file_paths output_dir env.

(** The summary answers a name with the record of the last item of that
    name. *)
Lemma batch_document h batch i file_path :
  process_documents_batch max_workers file_paths output_dir env
    (inr (h, batch)) →
  file_paths !! i = Some file_path →
  (∀ j file_path', i < j → file_paths !! j = Some file_path' →
                   name file_path' ≠ name file_path) →
  document h batch (VStr (name file_path))
  = Some (record (process_with_semaphore output_dir file_path (doc_id i)
                    (env i))).
Proof.
  intros (h' & batch' & [= <- <-] & _ & _ & _ & _ & _ & Hv)%batch_summary
    Hi Hlast.
  rewrite document_view, Hv, outcomes_entries.
  apply foldl_write_last with (i := i).
  - by rewrite list_lookup_imap, Hi.
  - intros j k' d' Hij. rewrite list_lookup_imap.
    destruct (file_paths !! j) as [file_path'|] eqn:Hj; [|done].
    intros [= <- <-] [= Heq]. by apply (Hlast j file_path').
Qed.

Lemma batch_documents_dom h batch :
  process_documents_batch max_workers file_paths output_dir env
    (inr (h, batch)) →
  dom (items (documents batch))
  = list_to_set (VStr ∘ name <$> file_paths).
Proof.
  intros (h' & batch' & [= <- <-] & Hcl & _ & _ & _ & _ & Hv)%batch_summary.
  rewrite <- (view_dom h batch Hcl), Hv, foldl_write_dom, outcomes_entries.
  rewrite dom_empty_L, (left_id_L ∅ (∪)). f_equal.
  apply list_eq. intros i.
  rewrite !list_lookup_fmap, list_lookup_imap.
  by destruct (file_paths !! i).
Qed.

Lemma batch_well_formed h batch :
  process_documents_batch max_workers file_paths output_dir env
    (inr (h, batch)) →
  well_formed (documents batch).
Proof.
  intros (h0 & gs & _ & Hagg)%batch_deterministic. symmetry in Hagg.
  eapply aggregate_from_well_formed; [exact Hagg|apply empty_well_formed].
Qed.
End filing.

(** C4, as stated, fails: the record filed for the escaped fault of
    [c.pdf] has a status and an error and neither name nor path. *)
Lemma synthesized_record_lacks_identity :
  ∃ h batch d,
    aggregate_step three_files (∅, initial three_files) 2
      (Exc (mkException "boom")) = inr (h, batch) ∧
    document h batch (VStr "c.pdf") = Some d ∧
    d !! "status" = Some (VStr "failed") ∧
    d !! "error" = Some (VStr "boom") ∧
    d !! "file_name" = None ∧
    d !! "file_path" = None ∧
    ¬ carries_identity d (pdf "c").
Proof.
  eexists _, _, _. split; [reflexivity|].
  split; [vm_compute; reflexivity|].
  split_and!; try reflexivity.
  intros [Hname _]. vm_compute in Hname. discriminate.
Qed.

(** C4, amended: for a bare fault at position [i] the loop allocates a new
    record holding exactly [status = failed] and [error = str(fault)],
    files it under the name of [file_paths[i]], adds one to [failed] and
    leaves the other counts, the total time and every existing object as
    they were; the item's name is the key of the record, not a field of
    it. In the summary of a batch, an item whose fault escaped is answered
    with that record, unless a later item has the same name. *)
Theorem bare_fault_is_filed_as_failed file_paths i file_path e :
  file_paths !! i = Some file_path →
  let d : Dict := <["status" := VStr "failed"]>
                  (<["error" := VStr (exc_str e)]> ∅) in
  (∀ h batch, ∃ l,
     h !! l = None ∧
     aggregate_step file_paths (h, batch) i (Exc e)
     = inr (<[l := d]> h,
            {| total_documents := total_documents batch;
               completed := completed batch;
               failed := S (failed batch);
               total_time := total_time batch;
               documents :=
                 setitem (VStr (name file_path)) l (documents batch) |})) ∧
  dom d = {[ "status"; "error" ]} ∧
  (∀ K output_dir env h batch,
     process_documents_batch K file_paths output_dir env (inr (h, batch)) →
     env i = Escapes e →
     (∀ j file_path', i < j → file_paths !! j = Some file_path' →
                      name file_path' ≠ name file_path) →
     document h batch (VStr (name file_path)) = Some d ∧
     1 ≤ failed batch).
Proof.
  intros Hi d. split_and!.
  - intros h batch. exists (fresh (dom h)). split; [apply fresh_lookup|].
    unfold aggregate_step, index. rewrite Hi. done.
  - unfold d. rewrite !dom_insert_L, dom_empty_L. set_solver.
  - intros K output_dir env h batch Hbatch Henv Hlast.
    rewrite (batch_document K file_paths output_dir env h batch i file_path)
      by done.
    rewrite Henv. split; [done|].
    apply batch_summary in Hbatch
      as (h' & batch' & [= <- <-] & _ & _ & _ & Hf & _).
    rewrite Hf.
    assert (outcomes file_paths output_dir env !! i = Some (inr e)) as Hout.
    { by rewrite outcomes_lookup, Hi, Henv. }
    apply list_elem_of_lookup_2 in Hout. by apply count_failed_elem in Hout.
Qed.

Lemma bare_fault_is_filed_as_failed_witness :
  let e := mkException "boom" in
  let d : Dict := <["status" := VStr "failed"]>
                  (<["error" := VStr (exc_str e)]> ∅) in
  three_files !! 2 = Some (pdf "c") ∧
  (∀ h batch, ∃ l,
     h !! l = None ∧
     aggregate_step three_files (h, batch) 2 (Exc e)
     = inr (<[l := d]> h,
            {| total_documents := total_documents batch;
               completed := completed batch;
               failed := S (failed batch);
               total_time := total_time batch;
               documents :=
                 setitem (VStr (name (pdf "c"))) l (documents batch) |})) ∧
  dom d = {[ "status"; "error" ]} ∧
  (∀ K output_dir env h batch,
     process_documents_batch K three_files output_dir env (inr (h, batch)) →
     env 2 = Escapes e →
     (∀ j file_path', 2 < j → three_files !! j = Some file_path' →
                      name file_path' ≠ name (pdf "c")) →
     document h batch (VStr (name (pdf "c"))) = Some d ∧
     1 ≤ failed batch).
Proof.
  intros e d. split; [reflexivity|].
  apply (bare_fault_is_filed_as_failed three_files 2 (pdf "c") e). reflexivity.
Defined.

(** C10: the keys of [documents] are the names of the submitted items, so
    the mapping has at most [total_documents] entries, exactly that many
    when the names are pairwise distinct and fewer when two items share a
    name, and [documents.items()] lists one entry per key; a name is
    answered with the record of the last item that has it;
    and [completed], [failed] and [total_documents] count every submitted
    item, whatever the names. *)
Theorem duplicate_names_share_one_entry K file_paths output_dir env res :
  process_documents_batch K file_paths output_dir env res →
  let outs := outcomes file_paths output_dir env in
  let names := name <$> file_paths in
  ∃ h batch,
    res = inr (h, batch) ∧
    dom (items (documents batch)) = list_to_set (VStr <$> names) ∧
    size (items (documents batch)) ≤ total_documents batch ∧
    (¬ NoDup names → size (items (documents batch)) < total_documents batch) ∧
    (NoDup names → size (items (documents batch)) = total_documents batch) ∧
    length (odict_items (documents batch)) = size (items (documents batch)) ∧
    total_documents batch = length file_paths ∧
    completed batch = count_completed outs ∧
    failed batch = count_failed outs ∧
    completed batch + failed batch = total_documents batch ∧
    (∀ i file_path,
       file_paths !! i = Some file_path →
       (∀ j file_path', i < j → file_paths !! j = Some file_path' →
                        name file_path' ≠ name file_path) →
       document h batch (VStr (name file_path))
       = Some (record (process_with_semaphore output_dir file_path
                         (doc_id i) (env i)))) ∧
    (NoDup names →
     ∀ i file_path,
       file_paths !! i = Some file_path →
       document h batch (VStr (name file_path))
       = Some (record (process_with_semaphore output_dir file_path
                         (doc_id i) (env i)))).
Proof.
  intros Hbatch outs names.
  destruct (batch_summary _ _ _ _ _ Hbatch)
    as (h & batch & -> & Hcl & Ht & Hc & Hf & _ & _).
  pose proof (batch_documents_dom _ _ _ _ _ _ Hbatch) as Hdom.
  rewrite list_fmap_compose in Hdom. fold names in Hdom.
  assert (length (VStr <$> names) = total_documents batch) as Hlen.
  { unfold names. by rewrite !length_fmap. }
  assert (size (items (documents batch))
          = size (list_to_set (VStr <$> names) : gset value)) as Hsize.
  { by rewrite <- Hdom, size_dom. }
  assert (NoDup (VStr <$> names) ↔ NoDup names) as Hnodup.
  { apply NoDup_fmap. by intros ?? [= ->]. }
  exists h, batch. split_and!; try done.
  - rewrite Hsize, <- Hlen. apply size_list_to_set_le.
  - intros Hdup. rewrite Hsize, <- Hlen. apply size_list_to_set_dup.
    by rewrite Hnodup.
  - intros Hnd. rewrite Hsize, <- Hlen. apply size_list_to_set.
    by rewrite Hnodup.
  - apply well_formed_length. by eapply batch_well_formed.
  - rewrite Hc, Hf, Ht, count_total. apply outcomes_length.
  - intros i file_path Hi Hlast. by eapply batch_document.
  - intros Hnd i file_path Hi. eapply batch_document; [done..|].
    intros j file_path' Hij Hj Heq.
    assert (names !! i = Some (name file_path)) as Hni.
    { unfold names. by rewrite list_lookup_fmap, Hi. }
    assert (names !! j = Some (name file_path)) as Hnj.
    { unfold names. by rewrite list_lookup_fmap, Hj, <- Heq. }
    pose proof (NoDup_lookup _ _ _ _ Hnd Hni Hnj). lia.
Qed.

Lemma duplicate_names_share_one_entry_witness :
  let outs := outcomes twice_a "out" mixed_env in
  let names := name <$> twice_a in
  let res := aggregate (store ∅ outs).1 twice_a (store ∅ outs).2 in
  process_documents_batch 2 twice_a "out" mixed_env res ∧
  ∃ h batch,
    res = inr (h, batch) ∧
    dom (items (documents batch)) = list_to_set (VStr <$> names) ∧
    size (items (documents batch)) ≤ total_documents batch ∧
    (¬ NoDup names → size (items (documents batch)) < total_documents batch) ∧
    (NoDup names → size (items (documents batch)) = total_documents batch) ∧
    length (odict_items (documents batch)) = size (items (documents batch)) ∧
    total_documents batch = length twice_a ∧
    completed batch = count_completed outs ∧
    failed batch = count_failed outs ∧
    completed batch + failed batch = total_documents batch ∧
    (∀ i file_path,
       twice_a !! i = Some file_path →
       (∀ j file_path', i < j → twice_a !! j = Some file_path' →
                        name file_path' ≠ name file_path) →
       document h batch (VStr (name file_path))
       = Some (record (process_with_semaphore "out" file_path
                         (doc_id i) (mixed_env i)))) ∧
    (NoDup names →
     ∀ i file_path,
       twice_a !! i = Some file_path →
       document h batch (VStr (name file_path))
       = Some (record (process_with_semaphore "out" file_path
                         (doc_id i) (mixed_env i)))).
Proof.
  intros outs names res.
  assert (process_documents_batch 2 twice_a "out" mixed_env res) as Hrun.
  { apply (batch_done 2 twice_a "out" mixed_env
             {| sem_value := 2;
                tasks := Finished <$> outs |} outs).
    - acquire 0 1. acquire 1 0. release 0. acquire 2 0. release 2. release 1.
      apply rtc_refl.
    - reflexivity.
    - apply surjective_pairing. }
  split; [exact Hrun|].
  exact (duplicate_names_share_one_entry 2 twice_a "out" mixed_env res Hrun).
Defined.

Lemma of_nat_zero n : of_nat n = 0%Qc ↔ n = 0.
Proof.
  unfold of_nat. split; [|by intros ->].
  intros H. apply Q2Qc_eq_iff in H. unfold Qeq in H. simpl in H. lia.
Qed.

Lemma print_bind {B} (line : string) (k : () → printing B) out :
  (print line ≫= k) out = k () (out ++ [line])%list.
Proof. done. Qed.

Lemma lift_bind {A B} (a : A) (k : A → printing B) out :
  (lift (mret a) ≫= k) out = k a out.
Proof. done. Qed.



Lemma print_statistics_pos results out :
  total_documents results ≠ 0 →
  print_statistics results out
  = ((out ++ header results ++ statistics results)%list, inr ()).
Proof.
  intros H0. unfold print_statistics, truediv, statistics.
  rewrite (decide_False (P := of_nat (total_documents results) = 0%Qc))
    by (by rewrite of_nat_zero).
  rewrite !print_bind, lift_bind, print_bind.
  destruct (decide (0 < completed results)) as [Hc|Hc].
  - rewrite (decide_False (P := of_nat (completed results) = 0%Qc))
      by (rewrite of_nat_zero; lia).
    rewrite lift_bind. unfold print, header, rate_line, average_line.
    by rewrite <- !app_assoc.
  - unfold mret, printing_ret, header, rate_line.
    by rewrite <- !app_assoc.
Qed.

Lemma harmless_print line : is_average line = false → harmless (print line).
Proof.
  intros Hline out. exists [line], (inr ()). split_and!; try done.
  by constructor.
Qed.

Lemma harmless_ret : harmless (mret ()).
Proof.
  intros out. exists [], (inr ()). split_and!; try done.
  unfold mret, printing_ret. by rewrite app_nil_r.
Qed.

Lemma harmless_lift {A} (m : raising A) (k : A → printing ()) :
  m ≠ inl ZeroDivisionError →
  (∀ a, m = inr a → harmless (k a)) →
  harmless (lift m ≫= k).
Proof.
  intros Hm Hk out. destruct m as [e|a].
  - exists [], (inl e). rewrite app_nil_r.
    split_and!; [done| |constructor]. intros [= ->]. by apply Hm.
  - destruct (Hk a eq_refl out) as (new & r & Hka & Hr & Hnew).
    exists new, r. split_and!; done.
Qed.

Lemma getitem_no_division d k : getitem d k ≠ inl ZeroDivisionError.
Proof. unfold getitem. by destruct (d !! k). Qed.

Lemma format_value_f_no_division n v :
  format_value_f n v ≠ inl ZeroDivisionError.
Proof. by destruct v. Qed.

Lemma harmless_bind (p : printing ()) (k : () → printing ()) :
  harmless p → harmless (k ()) → harmless (p ≫= k).
Proof.
  intros Hp Hk out.
  destruct (Hp out) as (new1 & r1 & Hp1 & Hr1 & Hnew1).
  unfold mbind, printing_bind. rewrite Hp1.
  destruct r1 as [e|[]].
  - exists new1, (inl e). done.
  - destruct (Hk (out ++ new1)%list) as (new2 & r2 & Hk2 & Hr2 & Hnew2).
    exists (new1 ++ new2)%list, r2. rewrite Hk2, app_assoc.
    split_and!; try done. by apply Forall_app.
Qed.

Section listing.
Variable str_number : Qc → string.
Variable h : heap.

Lemma harmless_document doc_name l :
  harmless (print_document str_number h doc_name l).
Proof.
  unfold print_document.
  apply harmless_lift; [apply getitem_no_division|]. intros status _.
  apply harmless_bind.
  { apply harmless_print. by case_decide. }
  case_decide.
  - apply harmless_lift; [apply getitem_no_division|].
    intros processing_time _.
    apply harmless_lift; [apply format_value_f_no_division|]. intros t _.
    by apply harmless_print.
  - destruct (deref h l !! "error") as [err|]; [|apply harmless_ret].
    by apply harmless_print.
Qed.

Lemma harmless_documents items :
  harmless (print_documents str_number h items).
Proof.
  induction items as [|[doc_name l] items IH]; [apply harmless_ret|].
  simpl. apply harmless_bind; [apply harmless_document|done].
Qed.

Lemma harmless_listing results :
  harmless (print_listing str_number h results).
Proof.
  unfold print_listing.
  apply harmless_bind; [by apply harmless_print|].
  apply harmless_bind; [apply harmless_documents|].
  by apply harmless_print.
Qed.
End listing.





Lemma print_batch_summary_pos str_number h results out :
  total_documents results ≠ 0 →
  ∃ listing r,
    print_batch_summary str_number h results out
    = ((out ++ header results ++ statistics results ++ listing)%list, r) ∧
    r ≠ inl ZeroDivisionError ∧
    Forall (λ line, is_average line = false) listing.
Proof.
  intros H0. unfold print_batch_summary, mbind, printing_bind.
  rewrite print_statistics_pos by done.
  destruct (harmless_listing str_number h results
              (out ++ header results ++ statistics results)%list)
    as (listing & r & Hl & Hr & Hlisting).
  exists listing, r. rewrite Hl. split_and!; try done.
  by rewrite <- !app_assoc.
Qed.





(** ** The end-to-end scenario *)

Lemma duration_runs output_dir file_path document_id r :
  duration (process_with_semaphore output_dir file_path document_id (Runs r))
  = (end_time r - start_time r)%Qc.
Proof. unfold duration. simpl. by rewrite lookup_processing_time. Qed.

Lemma is_completed_runs output_dir file_path document_id r :
  is_completed
    (process_with_semaphore output_dir file_path document_id (Runs r))
  = match body r with
    | Returns _ => true
    | Raises _ => false
    end.
Proof.
  unfold is_completed. simpl. rewrite lookup_status. by destruct (body r).
Qed.

Lemma three_is_sum : Q2Qc 3 = (1 + 1 + 1)%Qc.
Proof. by apply Qc_is_canon. Qed.

(** C6, as stated, fails: if [b.pdf] fails half a second after it
    started, the cumulative duration is 3.5s, not 3.0s. *)
Lemma scenario_total_time_counts_the_failure :
  let env := scenario (Q2Qc 0) "A" (Q2Qc 0) (Q2Qc (1 # 2)) (Q2Qc 0) "C" in
  let outs := outcomes three_files "out" env in
  let res := aggregate (store ∅ outs).1 three_files (store ∅ outs).2 in
  process_documents_batch 2 three_files "out" env res ∧
  ∃ h batch,
    res = inr (h, batch) ∧
    total_documents batch = 3 ∧ completed batch = 2 ∧ failed batch = 1 ∧
    total_time batch = Q2Qc (7 # 2) ∧
    total_time batch ≠ Q2Qc 3.
Proof.
  intros env outs res. split.
  - apply (batch_done 2 three_files "out" env
             {| sem_value := 2; tasks := Finished <$> outs |} outs).
    + acquire 0 1. acquire 1 0. release 1. acquire 2 0. release 0. release 2.
      apply rtc_refl.
    + reflexivity.
    + apply surjective_pairing.
  - eexists _, _. split; [vm_compute; reflexivity|].
    cbn [total_documents completed failed total_time].
    split_and!; try reflexivity.
    intros H. apply (f_equal this) in H. vm_compute in H. discriminate.
Qed.

(** C6, amended: in the scenario the summary has [total_documents = 3],
    [completed = 2], [failed = 1], the record of [b.pdf] has status
    [failed] and error "parse error", and the success rate line reads
    66.7%; the cumulative duration is 3.0s plus the time [b.pdf] took to
    fail, since the loop adds the duration of every returned record,
    failed ones included; it is 3.0s when that time is zero. *)
Theorem scenario_summary
    start_a text_a start_b stop_b start_c text_c str_number res :
  let env := scenario start_a text_a start_b stop_b start_c text_c in
  process_documents_batch 2 three_files "out" env res →
  ∃ h batch d,
    res = inr (h, batch) ∧
    total_documents batch = 3 ∧ completed batch = 2 ∧ failed batch = 1 ∧
    document h batch (VStr "b.pdf") = Some d ∧
    d !! "status" = Some (VStr "failed") ∧
    d !! "error" = Some (VStr "parse error") ∧
    total_time batch = (Q2Qc 3 + (stop_b - start_b))%Qc ∧
    (stop_b = start_b → total_time batch = Q2Qc 3) ∧
    (print_batch_summary str_number h batch []).1 !! 7
    = Some "📊 Success rate: 66.7%".
Proof.
  intros env Hbatch.
  destruct (batch_summary _ _ _ _ _ Hbatch)
    as (h & batch & -> & _ & Ht & Hc & Hf & Hd & _).
  pose proof (batch_document 2 three_files "out" env h batch 1 (pdf "b")
                Hbatch eq_refl) as Hdoc.
  assert (outcomes three_files "out" env
          = [process_with_semaphore "out" (pdf "a") (doc_id 0) (env 0);
             process_with_semaphore "out" (pdf "b") (doc_id 1) (env 1);
             process_with_semaphore "out" (pdf "c") (doc_id 2) (env 2)])
    as Houts by reflexivity.
  rewrite Houts in Hc, Hf, Hd. unfold env in Hc, Hf, Hd, Hdoc.
  cbn [scenario] in Hc, Hf, Hd, Hdoc.
  rewrite !count_completed_cons, !is_completed_runs in Hc.
  rewrite !count_failed_cons, !is_completed_runs in Hf.
  unfold sum_time in Hd. cbn [foldr] in Hd.
  rewrite !duration_runs in Hd. cbn [start_time end_time] in Hd.
  assert (total_time batch = (Q2Qc 3 + (stop_b - start_b))%Qc) as Htime.
  { rewrite Hd, three_is_sum. ring. }
  eexists h, batch, _. split_and!; try done.
  - apply Hdoc. intros j file_path' Hj Hlook.
    destruct j as [|[|[|j]]]; try lia; [|done].
    injection Hlook as <-. done.
  - apply lookup_status.
  - apply lookup_error.
  - intros ->. rewrite Htime. rewrite three_is_sum. ring.
  - destruct (print_batch_summary_pos str_number h batch [])
      as (listing & r & -> & _); [rewrite Ht; done|].
    cbn [fst]. unfold statistics, rate_line. rewrite Hc, Ht. reflexivity.
Qed.

Lemma scenario_summary_witness :
  let env := scenario (Q2Qc 0) "A" (Q2Qc 5) (Q2Qc 5) (Q2Qc 0) "C" in
  let outs := outcomes three_files "out" env in
  let res := aggregate (store ∅ outs).1 three_files (store ∅ outs).2 in
  process_documents_batch 2 three_files "out" env res ∧
  ∃ h batch d,
    res = inr (h, batch) ∧
    total_documents batch = 3 ∧ completed batch = 2 ∧ failed batch = 1 ∧
    document h batch (VStr "b.pdf") = Some d ∧
    d !! "status" = Some (VStr "failed") ∧
    d !! "error" = Some (VStr "parse error") ∧
    total_time batch = (Q2Qc 3 + (Q2Qc 5 - Q2Qc 5))%Qc ∧
    (Q2Qc 5 = Q2Qc 5 → total_time batch = Q2Qc 3) ∧
    (print_batch_summary (λ _, "") h batch []).1 !! 7
    = Some "📊 Success rate: 66.7%".
Proof.
  intros env outs res.
  assert (process_documents_batch 2 three_files "out" env res) as Hrun.
  { apply (batch_done 2 three_files "out" env
             {| sem_value := 2; tasks := Finished <$> outs |} outs).
    - acquire 0 1. acquire 1 0. release 1. acquire 2 0. release 0. release 2.
      apply rtc_refl.
    - reflexivity.
    - apply surjective_pairing. }
  split; [exact Hrun|].
  exact (scenario_summary (Q2Qc 0) "A" (Q2Qc 5) (Q2Qc 5) (Q2Qc 0) "C"
           (λ _, "") res Hrun).
Defined.

(** ** Order and purity of the aggregation *)

Lemma valid_denotes h gs :
  Forall (valid h) gs → Forall2 (denotes h) gs (reify h <$> gs).
Proof.
  induction 1 as [|g gs Hg _ IH]; constructor; [|done].
  destruct g as [l|e]; simpl; [|done].
  destruct Hg as [d Hd]. unfold deref. by rewrite Hd.
Qed.






(** * Further properties of the driver *)

(** ** Scheduling *)

(** X1: the value [process_documents_batch] returns depends on neither the
    number of workers nor the interleaving of the tasks. *)
Theorem batch_result_schedule_independent
    K K' file_paths output_dir env res res' :
  process_documents_batch K file_paths output_dir env res →
  process_documents_batch K' file_paths output_dir env res' →
  res = res'.
Proof.
  intros (h & gs & Hst & ->)%batch_deterministic
         (h' & gs' & Hst' & ->)%batch_deterministic.
  rewrite Hst in Hst'. by injection Hst' as <- <-.
Qed.

Lemma batch_result_schedule_independent_witness :
  let outs := outcomes three_files "out" mixed_env in
  let res := aggregate (store ∅ outs).1 three_files (store ∅ outs).2 in
  process_documents_batch 1 three_files "out" mixed_env res ∧
  process_documents_batch 3 three_files "out" mixed_env res ∧
  res = res.
Proof.
  intros outs res.
  assert (process_documents_batch 1 three_files "out" mixed_env res) as H1.
  { apply (batch_done 1 three_files "out" mixed_env
             {| sem_value := 1; tasks := Finished <$> outs |} outs).
    - acquire 0 0. release 0. acquire 1 0. release 1. acquire 2 0. release 2.
      apply rtc_refl.
    - reflexivity.
    - apply surjective_pairing. }
  assert (process_documents_batch 3 three_files "out" mixed_env res) as H3.
  { apply (batch_done 3 three_files "out" mixed_env
             {| sem_value := 3; tasks := Finished <$> outs |} outs).
    - acquire 2 2. acquire 1 1. acquire 0 0. release 1. release 0. release 2.
      apply rtc_refl.
    - reflexivity.
    - apply surjective_pairing. }
  split; [exact H1|]. split; [exact H3|].
  exact (batch_result_schedule_independent 1 3 three_files "out" mixed_env
           res res H1 H3).
Defined.

Lemma no_slot_no_step outs n st :
  rtc (step outs) (init 0 n) st → st = init 0 n.
Proof.
  intros Hrtc. apply rtc_ind_r with (x := init 0 n)
    (P := λ s, s = init 0 n) in Hrtc; [done|done|].
  clear st Hrtc. intros st1 st2 _ Hstep ->.
  inversion Hstep as [s i v Hi Hv | s i r Hi Hr]; simplify_eq/=.
  by apply lookup_replicate in Hi as [? _].
Qed.

(** X2: with [max_workers = 0] and at least one file, no task ever gets a
    slot and [process_documents_batch] never returns; with no file it
    returns the empty summary at once, whatever [max_workers] is. *)
Theorem zero_workers_never_return file_paths output_dir env :
  (file_paths ≠ [] →
   ¬ ∃ res, process_documents_batch 0 file_paths output_dir env res) ∧
  (∀ K, process_documents_batch K [] output_dir env
          (inr (∅, initial []))) ∧
  (∀ K res, process_documents_batch K [] output_dir env res →
            res = inr (∅, initial [])).
Proof.
  split_and!.
  - intros Hne [res Hres]. destruct Hres as [st rs h gs Hrtc Hg Hst].
    apply no_slot_no_step in Hrtc as ->.
    destruct file_paths as [|file_path file_paths]; [done|]. done.
  - intros K.
    apply (batch_done K [] output_dir env (init K 0) [] ∅ []);
      [apply rtc_refl|done|done].
  - intros K res (h & gs & Hst & ->)%batch_deterministic.
    by injection Hst as <- <-.
Qed.

(** ** Counts and durations, item by item *)

Lemma count_completed_seq (f : nat → bool) rs : ∀ k,
  (∀ i r, rs !! i = Some r → is_completed r = f (k + i)) →
  count_completed rs
  = length (filter (λ i, f i = true) (seq k (length rs))).
Proof.
  induction rs as [|r rs IH]; intros k Hf; [done|].
  rewrite count_completed_cons. simpl. rewrite filter_cons.
  rewrite (Hf 0 r eq_refl), Nat.add_0_r.
  rewrite (IH (S k)).
  - destruct (f k); by case_decide.
  - intros i r' Hi. rewrite (Hf (S i) r' Hi). f_equal. lia.
Qed.

Lemma count_failed_seq (f : nat → bool) rs : ∀ k,
  (∀ i r, rs !! i = Some r → is_completed r = f (k + i)) →
  count_failed rs
  = length (filter (λ i, f i = false) (seq k (length rs))).
Proof.
  induction rs as [|r rs IH]; intros k Hf; [done|].
  rewrite count_failed_cons. simpl. rewrite filter_cons.
  rewrite (Hf 0 r eq_refl), Nat.add_0_r.
  rewrite (IH (S k)).
  - destruct (f k); by case_decide.
  - intros i r' Hi. rewrite (Hf (S i) r' Hi). f_equal. lia.
Qed.

Lemma sum_time_seq (f : nat → Qc) rs : ∀ k,
  (∀ i r, rs !! i = Some r → duration r = f (k + i)) →
  sum_time rs = foldr (λ i acc, f i + acc)%Qc 0%Qc (seq k (length rs)).
Proof.
  unfold sum_time.
  induction rs as [|r rs IH]; intros k Hf; [done|].
  simpl. rewrite (Hf 0 r eq_refl), Nat.add_0_r. f_equal.
  apply IH. intros i r' Hi. rewrite (Hf (S i) r' Hi). f_equal. lia.
Qed.

Lemma is_completed_outcome output_dir file_path document_id e :
  is_completed (process_with_semaphore output_dir file_path document_id e)
  = succeeded e.
Proof. destruct e as [r|e]; [apply is_completed_runs|done]. Qed.

Lemma duration_outcome output_dir file_path document_id e :
  duration (process_with_semaphore output_dir file_path document_id e)
  = elapsed e.
Proof. destruct e as [r|e]; [apply duration_runs|done]. Qed.

Lemma batch_by_outcome K file_paths output_dir env h batch :
  process_documents_batch K file_paths output_dir env (inr (h, batch)) →
  let n := length file_paths in
  completed batch = length (positions (succeeded ∘ env) n) ∧
  failed batch
  = length (filter (λ i, succeeded (env i) = false) (seq 0 n)) ∧
  total_time batch
  = foldr (λ i acc, elapsed (env i) + acc)%Qc 0%Qc (seq 0 n).
Proof.
  intros (h' & batch' & [= <- <-] & _ & _ & Hc & Hf & Hd & _)%batch_summary n.
  rewrite Hc, Hf, Hd. subst n.
  rewrite <- (outcomes_length file_paths output_dir env).
  split_and!.
  - apply (count_completed_seq (succeeded ∘ env) _ 0).
    intros i r. rewrite outcomes_lookup.
    destruct (file_paths !! i); intros [= <-]. apply is_completed_outcome.
  - apply (count_failed_seq (succeeded ∘ env) _ 0).
    intros i r. rewrite outcomes_lookup.
    destruct (file_paths !! i); intros [= <-]. apply is_completed_outcome.
  - apply (sum_time_seq (elapsed ∘ env) _ 0).
    intros i r. rewrite outcomes_lookup.
    destruct (file_paths !! i); intros [= <-]. apply duration_outcome.
Qed.

(** X3: [completed] is the number of items whose processing returned,
    [failed] the number of all the others (an exception inside the [try]
    or one that escaped), and [total_time] adds up [end - start] over the
    items that made both clock readings, failed ones included. *)
Theorem counts_follow_the_outcomes K file_paths output_dir env res :
  process_documents_batch K file_paths output_dir env res →
  let n := length file_paths in
  ∃ h batch,
    res = inr (h, batch) ∧
    completed batch = length (positions (succeeded ∘ env) n) ∧
    failed batch = n - length (positions (succeeded ∘ env) n) ∧
    total_time batch
    = foldr (λ i acc, elapsed (env i) + acc)%Qc 0%Qc (seq 0 n).
Proof.
  intros Hbatch n.
  destruct (batch_summary _ _ _ _ _ Hbatch)
    as (h & batch & -> & _ & Ht & Hc & Hf & _).
  destruct (batch_by_outcome _ _ _ _ _ _ Hbatch) as (Hc' & _ & Hd').
  exists h, batch. split_and!; try done.
  fold n in Hc'. rewrite <- Hc'.
  pose proof (count_total (outcomes file_paths output_dir env)) as Hsum.
  rewrite outcomes_length in Hsum. fold n in Hsum. lia.
Qed.

Lemma counts_follow_the_outcomes_witness :
  let outs := outcomes three_files "out" mixed_env in
  let res := aggregate (store ∅ outs).1 three_files (store ∅ outs).2 in
  let n := length three_files in
  process_documents_batch 2 three_files "out" mixed_env res ∧
  ∃ h batch,
    res = inr (h, batch) ∧
    completed batch = length (positions (succeeded ∘ mixed_env) n) ∧
    failed batch = n - length (positions (succeeded ∘ mixed_env) n) ∧
    total_time batch
    = foldr (λ i acc, elapsed (mixed_env i) + acc)%Qc 0%Qc (seq 0 n).
Proof.
  intros outs res n.
  assert (process_documents_batch 2 three_files "out" mixed_env res) as Hrun.
  { apply (batch_done 2 three_files "out" mixed_env
             {| sem_value := 2; tasks := Finished <$> outs |} outs).
    - acquire 0 1. acquire 1 0. release 0. acquire 2 0. release 2. release 1.
      apply rtc_refl.
    - reflexivity.
    - apply surjective_pairing. }
  split; [exact Hrun|].
  exact (counts_follow_the_outcomes 2 three_files "out" mixed_env res Hrun).
Defined.

Lemma foldr_nonneg (f : nat → Qc) (l : list nat) :
  (∀ i, i ∈ l → (0 ≤ f i)%Qc) →
  (0 ≤ foldr (λ i acc, f i + acc) 0 l)%Qc.
Proof.
  induction l as [|i l IH]; intros Hf; simpl.
  - apply Qcle_refl.
  - replace 0%Qc with (0 + 0)%Qc by ring.
    apply Qcplus_le_compat.
    + apply Hf. by left.
    + apply IH. intros j Hj. apply Hf. by right.
Qed.

(** X4: if no task saw the clock go backwards between its two readings,
    the cumulative duration of the summary is not negative. *)
Theorem total_time_not_negative K file_paths output_dir env res :
  process_documents_batch K file_paths output_dir env res →
  (∀ i r, i < length file_paths → env i = Runs r →
          (start_time r ≤ end_time r)%Qc) →
  ∃ h batch, res = inr (h, batch) ∧ (0 ≤ total_time batch)%Qc.
Proof.
  intros Hbatch Hclock.
  destruct (batch_summary _ _ _ _ _ Hbatch) as (h & batch & -> & _).
  destruct (batch_by_outcome _ _ _ _ _ _ Hbatch) as (_ & _ & Hd).
  exists h, batch. split; [done|]. rewrite Hd.
  apply foldr_nonneg. intros i Hi%elem_of_seq.
  destruct (env i) as [r|e] eqn:Hr; simpl; [|apply Qcle_refl].
  unfold Qcminus. apply (proj1 (Qcle_minus_iff _ _)).
  apply (Hclock i r); [lia|done].
Qed.

Lemma total_time_not_negative_witness :
  let outs := outcomes three_files "out" mixed_env in
  let res := aggregate (store ∅ outs).1 three_files (store ∅ outs).2 in
  process_documents_batch 2 three_files "out" mixed_env res ∧
  (∀ i r, i < length three_files → mixed_env i = Runs r →
          (start_time r ≤ end_time r)%Qc) ∧
  ∃ h batch, res = inr (h, batch) ∧ (0 ≤ total_time batch)%Qc.
Proof.
  intros outs res.
  assert (process_documents_batch 2 three_files "out" mixed_env res) as Hrun.
  { apply (batch_done 2 three_files "out" mixed_env
             {| sem_value := 2; tasks := Finished <$> outs |} outs).
    - acquire 0 1. acquire 1 0. release 0. acquire 2 0. release 2. release 1.
      apply rtc_refl.
    - reflexivity.
    - apply surjective_pairing. }
  assert (∀ i r, i < length three_files → mixed_env i = Runs r →
                 (start_time r ≤ end_time r)%Qc) as Hclock.
  { intros [|[|[|i]]] r Hi; simpl in *; try lia;
      intros [= <-]; simpl; by vm_compute. }
  split; [exact Hrun|]. split; [exact Hclock|].
  exact (total_time_not_negative 2 three_files "out" mixed_env res
           Hrun Hclock).
Defined.

(** ** What the aggregation loop raises *)

Lemma aggregate_step_error file_paths h batch i g e :
  i < length file_paths →
  aggregate_step file_paths (h, batch) i g = inl e →
  e = KeyError "file_name" ∨ e = KeyError "status" ∨
  e = KeyError "processing_time" ∨ e = TypeError.
Proof.
  intros Hi. destruct g as [l|e']; unfold aggregate_step.
  - unfold getitem.
    destruct (deref h l !! "file_name") as [k|]; cbn; [|intros [= <-]; eauto].
    destruct (deref h l !! "status") as [st|]; cbn; [|intros [= <-]; eauto].
    destruct (deref h l !! "processing_time") as [[| |q]|]; cbn;
      intros [= <-]; eauto.
  - unfold index.
    destruct (lookup_lt_is_Some_2 file_paths i Hi) as [file_path ->]. done.
Qed.

Lemma aggregate_from_error file_paths gs : ∀ i acc e,
  i + length gs ≤ length file_paths →
  aggregate_from file_paths i gs acc = inl e →
  e = KeyError "file_name" ∨ e = KeyError "status" ∨
  e = KeyError "processing_time" ∨ e = TypeError.
Proof.
  induction gs as [|g gs IH]; intros i [h batch] e Hlen; [done|].
  rewrite aggregate_from_cons. simpl in Hlen.
  destruct (aggregate_step file_paths (h, batch) i g) as [e'|acc'] eqn:Hstep.
  - intros [= <-]. eapply aggregate_step_error; [|done]. lia.
  - apply IH. lia.
Qed.

(** X5: over as many results as there are files, all references pointing
    to objects, the loop returns a summary exactly when every returned
    dict has a [file_name], a [status] and a numeric [processing_time];
    otherwise it raises [KeyError] for the first of these keys that is
    missing, or [TypeError] for a duration that is not a number, and never
    [IndexError]. *)
Theorem aggregate_returns_iff_readable h file_paths results :
  length results = length file_paths →
  Forall (valid h) results →
  ((∃ res, aggregate h file_paths results = inr res) ↔
   Forall readable (reify h <$> results)) ∧
  (∀ e, aggregate h file_paths results = inl e →
        e = KeyError "file_name" ∨ e = KeyError "status" ∨
        e = KeyError "processing_time" ∨ e = TypeError).
Proof.
  intros Hlen Hvalid.
  pose proof (valid_denotes h results Hvalid) as Hden.
  split; [split|].
  - intros [res Hagg].
    eapply (aggregate_from_inv file_paths results _ 0 h); [done..|lia|done].
  - intros Hread.
    destruct (aggregate_from_ok file_paths results _ 0 h (initial file_paths)
                Hden Hread) as (h1 & b1 & Hagg & _); [lia|done|].
    by exists (h1, b1).
  - intros e. apply aggregate_from_error. lia.
Qed.

Lemma aggregate_returns_iff_readable_witness :
  let h := mixed_store.1 in
  let results := mixed_store.2 in
  length results = length three_files ∧
  Forall (valid h) results ∧
  ((∃ res, aggregate h three_files results = inr res) ↔
   Forall readable (reify h <$> results)) ∧
  (∀ e, aggregate h three_files results = inl e →
        e = KeyError "file_name" ∨ e = KeyError "status" ∨
        e = KeyError "processing_time" ∨ e = TypeError).
Proof.
  intros h results.
  assert (length results = length three_files) as Hlen by reflexivity.
  assert (Forall (valid h) results) as Hvalid.
  { repeat constructor; eexists; vm_compute; reflexivity. }
  split; [exact Hlen|]. split; [exact Hvalid|].
  exact (aggregate_returns_iff_readable h three_files results Hlen Hvalid).
Defined.

(** ** The validation answer kept in the record *)

Lemma length_substring_exact (n : nat) : ∀ s : string,
  n ≤ String.length s → String.length (String.substring 0 n s) = n.
Proof.
  induction n as [|n IH]; intros [|c s]; simpl; intros Hn; try done; try lia.
  rewrite IH; lia.
Qed.

Lemma substring_append_prefix (p : string) : ∀ (t : string) n,
  String.length p = n → String.substring 0 n (p +:+ t) = p.
Proof.
  induction p as [|c p IH]; intros t n <-; simpl.
  - by destruct t.
  - by rewrite IH.
Qed.

Lemma substring_append_suffix (p : string) : ∀ (t : string) n m,
  String.length p = n →
  String.substring n m (p +:+ t) = String.substring 0 m t.
Proof.
  induction p as [|c p IH]; intros t n m <-; simpl; [done|].
  by apply IH.
Qed.

Lemma truncate_long test_result :
  200 < String.length test_result →
  ∃ p, String.length p = 200 ∧
       p = String.substring 0 200 test_result ∧
       truncate test_result = p +:+ "...".
Proof.
  intros Hlen. exists (String.substring 0 200 test_result).
  split_and!; [apply length_substring_exact; lia|done|].
  unfold truncate. by rewrite decide_True.
Qed.

(** X6: an answer of at most 200 characters is kept as it is; a longer one
    becomes its first 200 characters followed by three dots, 203
    characters in all, so that an answer of 201 or 202 characters gets
    longer; cutting a cut answer again changes nothing. *)
Theorem truncate_keeps_200_characters test_result :
  (String.length test_result ≤ 200 → truncate test_result = test_result) ∧
  (200 < String.length test_result →
   String.length (truncate test_result) = 203 ∧
   String.substring 0 200 (truncate test_result)
   = String.substring 0 200 test_result ∧
   String.substring 200 3 (truncate test_result) = "...") ∧
  truncate (truncate test_result) = truncate test_result.
Proof.
  split_and!.
  - intros Hlen. unfold truncate. by rewrite decide_False by lia.
  - intros (p & Hp & <- & ->)%truncate_long. split_and!.
    + rewrite length_append, Hp. done.
    + by apply substring_append_prefix.
    + by rewrite (substring_append_suffix p "..." 200 3 Hp).
  - destruct (decide (200 < String.length test_result)) as [Hlen|Hlen].
    + destruct (truncate_long _ Hlen) as (p & Hp & _ & ->).
      unfold truncate. rewrite decide_True
        by (rewrite length_append, Hp; simpl; lia).
      by rewrite (substring_append_prefix p "..." 200 Hp).
    + assert (truncate test_result = test_result) as Hshort
        by (unfold truncate; by rewrite decide_False).
      by rewrite !Hshort.
Qed.

(** ** Document identifiers and working directories *)

Lemma zeros_succ k :
  String.concat "" (replicate (S k) "0")
  = "0" +:+ String.concat "" (replicate k "0").
Proof. by destruct k. Qed.

Lemma zeros_length k : String.length (String.concat "" (replicate k "0")) = k.
Proof.
  induction k as [|k IH]; [done|].
  by rewrite zeros_succ, length_append, IH.
Qed.

Lemma parse_zero t : parse_decimal ("0" +:+ t) = parse_decimal t.
Proof.
  assert ("0" +:+ t
          = String (Ascii.Ascii false false false false true true false false)
              t) as -> by reflexivity.
  unfold parse_decimal. simpl. by destruct (NilEmpty.uint_of_string t).
Qed.

Lemma parse_zeros k s :
  parse_decimal (String.concat "" (replicate k "0") +:+ s) = parse_decimal s.
Proof.
  induction k as [|k IH]; [done|]. rewrite zeros_succ.
  change (("0" +:+ String.concat "" (replicate k "0")) +:+ s)
    with ("0" +:+ (String.concat "" (replicate k "0") +:+ s)).
  by rewrite parse_zero.
Qed.

Lemma parse_digits d :
  parse_decimal (NilZero.string_of_uint d) = Some (Nat.of_uint d).
Proof.
  unfold parse_decimal. destruct d as [|d|d|d|d|d|d|d|d|d|d]; [done|..];
    unfold NilZero.string_of_uint; by rewrite NilEmpty.usu.
Qed.

Lemma parse_format_03d i : parse_decimal (format_03d i) = Some i.
Proof.
  unfold format_03d. rewrite parse_zeros, parse_digits.
  by rewrite Unsigned.of_to.
Qed.

Lemma append_inj_r (s a b : string) : s +:+ a = s +:+ b → a = b.
Proof. induction s as [|c s IH]; simpl; [done|]. intros [= H]. auto. Qed.

(** X7: the number of a document can be read back from its identifier
    [med_doc_NNN], so different positions get different identifiers and
    different RAG working directories; the identifier has at least three
    digits and is never cut. *)
Theorem doc_id_identifies_position working_dir i j :
  parse_decimal (format_03d i) = Some i ∧
  (doc_id i = doc_id j → i = j) ∧
  (doc_working_dir working_dir (doc_id i)
   = doc_working_dir working_dir (doc_id j) → i = j) ∧
  String.length (doc_id i)
  = 8 + Nat.max 3 (String.length
                     (NilZero.string_of_uint (Nat.to_uint i))).
Proof.
  assert (format_03d i = format_03d j → i = j) as Hinj.
  { intros Heq. pose proof (parse_format_03d i) as Hi. rewrite Heq in Hi.
    rewrite parse_format_03d in Hi. by injection Hi. }
  split_and!; [apply parse_format_03d| | |].
  - unfold doc_id. by intros Heq%append_inj_r%Hinj.
  - unfold doc_working_dir, joinpath, doc_id.
    intros Heq. apply Hinj. by repeat apply append_inj_r in Heq.
  - unfold doc_id, format_03d. rewrite !length_append, zeros_length.
    simpl String.length at 1. lia.
Qed.
